(** * go-forms: field validation checks and their error accumulator

    A shallow embedding of the two source files of the repository,

    - the package file with the side-effecting [Is*] checks, which report a
      violation through [AddError], and
    - [validate/validation.go], whose checks build an [error] in a closure
      and hand it to [Validate],

    together with the parts of Go's standard library the checks call:
    [utf8.DecodeRuneInString], [fmt.Sprintf]/[fmt.Errorf] and
    [regexp.MatchString].

    Modelling conventions.
    - A Go [string] is a sequence of bytes: Rocq's [string] (a list of 8-bit
      [ascii]); [len(v)] is its byte count.
    - [Errors] is [map[string][]string]: a [gmap string (list string)].  The
      map is a reference in Go and every check mutates it in place; here each
      check takes the map and returns the map after the call.  Reading a
      missing key gives the nil slice, that is [[]].  Slices are modelled by
      their contents: the accumulator is created empty by the caller and
      filled by the checks only, so no two keys share a backing array.  The
      nil map (on which a failing check panics) is outside the model, as the
      accumulator must not be nil.
    - Go's [int] is taken as 64 bits wide.  The checks only compare and print
      integers, they never compute with them, so no wrap-around can arise and
      the [int] parameters are plain [Z]; the operands of the generic
      [IsNumberBetween] carry their type and its range. *)

From Stdlib Require Import ZArith Zbitwise Ascii String List Lia Bool.
From stdpp Require Import base tactics option list gmap strings pretty.

Local Open Scope string_scope.
Local Open Scope Z_scope.

(** ** unicode/utf8 *)

Module utf8.

Definition rune := Z.

Definition RuneError : rune := 65533. (* U+FFFD *)

Definition byte (c : ascii) : Z := Z.of_N (N_of_ascii c).

Definition chr (b : Z) : ascii := ascii_of_N (Z.to_N b).

(** [first]: for a lead byte, the size of the sequence and the accepted
    range of its second byte; [None] for a byte that cannot start a
    multi-byte sequence. *)
Definition first (b : Z) : option (nat * (Z * Z)) :=
  if (194 <=? b) && (b <=? 223) then Some (2%nat, (128, 191))
  else if b =? 224 then Some (3%nat, (160, 191))
  else if (225 <=? b) && (b <=? 236) then Some (3%nat, (128, 191))
  else if b =? 237 then Some (3%nat, (128, 159))
  else if (238 <=? b) && (b <=? 239) then Some (3%nat, (128, 191))
  else if b =? 240 then Some (4%nat, (144, 191))
  else if (241 <=? b) && (b <=? 243) then Some (4%nat, (128, 191))
  else if b =? 244 then Some (4%nat, (128, 143))
  else None.

Definition within (lo hi : Z) (c : ascii) : bool :=
  (lo <=? byte c) && (byte c <=? hi).

(** [DecodeRuneInString s]: the first rune of [s] and its width in bytes.
    An invalid or truncated encoding gives [(RuneError, 1)], the empty
    string [(RuneError, 0)]. *)
Definition DecodeRuneInString (s : string) : rune * nat :=
  match s with
  | EmptyString => (RuneError, 0%nat)
  | String s0 t =>
    match first (byte s0) with
    | None =>
      if byte s0 <? 128 then (byte s0, 1%nat) else (RuneError, 1%nat)
    | Some (sz, (lo, hi)) =>
      if (String.length s <? sz)%nat then (RuneError, 1%nat) else
      match t with
      | EmptyString => (RuneError, 1%nat)
      | String s1 t1 =>
        if negb (within lo hi s1) then (RuneError, 1%nat) else
        if (sz <=? 2)%nat then
          (Z.lor (Z.shiftl (Z.land (byte s0) 31) 6) (Z.land (byte s1) 63),
           2%nat)
        else
        match t1 with
        | EmptyString => (RuneError, 1%nat)
        | String s2 t2 =>
          if negb (within 128 191 s2) then (RuneError, 1%nat) else
          if (sz <=? 3)%nat then
            (Z.lor (Z.lor (Z.shiftl (Z.land (byte s0) 15) 12)
                          (Z.shiftl (Z.land (byte s1) 63) 6))
                   (Z.land (byte s2) 63),
             3%nat)
          else
          match t2 with
          | EmptyString => (RuneError, 1%nat)
          | String s3 _ =>
            if negb (within 128 191 s3) then (RuneError, 1%nat) else
            (Z.lor (Z.lor (Z.lor (Z.shiftl (Z.land (byte s0) 7) 18)
                                 (Z.shiftl (Z.land (byte s1) 63) 12))
                          (Z.shiftl (Z.land (byte s2) 63) 6))
                   (Z.land (byte s3) 63),
             4%nat)
          end
        end
      end
    end
  end.

(** [EncodeRune]/[AppendRune]: the UTF-8 encoding of a rune; a surrogate
    or out-of-range rune is encoded as [RuneError]. *)
Definition encode3 (r : rune) : string :=
  String (chr (Z.lor 224 (Z.shiftr r 12)))
 (String (chr (Z.lor 128 (Z.land (Z.shiftr r 6) 63)))
 (String (chr (Z.lor 128 (Z.land r 63))) EmptyString)).

Definition EncodeRune (r : rune) : string :=
  if (0 <=? r) && (r <=? 127) then String (chr r) EmptyString
  else if (0 <=? r) && (r <=? 2047) then
    String (chr (Z.lor 192 (Z.shiftr r 6)))
   (String (chr (Z.lor 128 (Z.land r 63))) EmptyString)
  else if (r <? 0) || (1114111 <? r) || ((55296 <=? r) && (r <=? 57343))
  then encode3 RuneError
  else if r <=? 65535 then encode3 r
  else
    String (chr (Z.lor 240 (Z.shiftr r 18)))
   (String (chr (Z.lor 128 (Z.land (Z.shiftr r 12) 63)))
   (String (chr (Z.lor 128 (Z.land (Z.shiftr r 6) 63)))
   (String (chr (Z.lor 128 (Z.land r 63))) EmptyString))).

Fixpoint drop (k : nat) (s : string) : string :=
  match k, s with
  | S k', String _ t => drop k' t
  | _, _ => s
  end.

(** The runes of a string, as [for _, r := range s] yields them.  Every
    step consumes at least one byte, so [String.length s] steps are
    enough. *)
Fixpoint runes_go (fuel : nat) (s : string) : list rune :=
  match fuel, s with
  | S fuel', String _ _ =>
    let '(r, size) := DecodeRuneInString s in r :: runes_go fuel' (drop size s)
  | _, _ => []
  end.

Definition runes (s : string) : list rune := runes_go (String.length s) s.

End utf8.

(** ** fmt *)

Module fmt.
Import utf8.

(** The verb [%d] on an integer operand: its decimal numeral, with a
    leading [-] when negative.  The format strings the checks pass to
    [Sprintf] are literals whose only directives are plain [%d] and [%s];
    such a call is written out below as the literal text with each
    directive replaced by its formatted operand. *)
Definition formatInt (x : Z) : string := pretty x.

(** Go's [error] interface, reduced to what [Validate] uses of it: [nil],
    or a value whose [Error()] is the given text. *)
Definition error := option string.

Definition percentBangString := "%!".
Definition missingString := "(MISSING)".
Definition badIndexString := "(BADINDEX)".
Definition noVerbString := "%!(NOVERB)".
Definition badWidthString := "%!(BADWIDTH)".
Definition badPrecString := "%!(BADPREC)".

(** *** [doPrintf] for a format with no operands

    [fmt.Errorf(msg)] runs [doPrintf] on [msg] with an empty operand list.
    Positions in the format are kept as the text that remains to be read. *)

Definition is_flag (c : ascii) : bool :=
  match c with
  | "#" | "0" | "+" | "-" | " " => true
  | _ => false
  end%char.

Fixpoint skip_flags (s : string) : string :=
  match s with
  | String c t => if is_flag c then skip_flags t else s
  | EmptyString => s
  end.

Definition tooLarge (x : Z) : bool := (1000000 <? x) || (x <? -1000000).

Definition is_digit (c : ascii) : bool := within 48 57 c.

(** [parsenum]: whether a number was read, and the text after it.  A
    number that grows too large gives up and moves to the end. *)
Fixpoint parsenum_go (num : Z) (isnum : bool) (s : string) : bool * string :=
  match s with
  | String c t =>
    if is_digit c then
      if tooLarge num then (false, EmptyString)
      else parsenum_go (num * 10 + (byte c - 48)) true t
    else (isnum, s)
  | EmptyString => (isnum, s)
  end.

Definition parsenum (s : string) : bool * string := parsenum_go 0 false s.

(** The text up to the first [']'], and the text after it. *)
Fixpoint find_close (s : string) : option (string * string) :=
  match s with
  | EmptyString => None
  | String c t =>
    if Ascii.eqb c "]" then Some (EmptyString, t)
    else match find_close t with
         | Some (inner, after) => Some (String c inner, after)
         | None => None
         end
  end.

(** [parseArgNumber] on a text that starts with ['[']: whether a
    well-formed index [[n]] was read, and the text after the bytes it
    skips. *)
Definition parseArgNumber (s : string) : bool * string :=
  match s with
  | EmptyString => (false, s)
  | String _ t =>
    if (String.length s <? 3)%nat then (false, t)
    else match find_close t with
         | Some (inner, after) =>
           let '(ok, rest) := parsenum inner in
           (ok && (String.length rest =? 0)%nat, after)
         | None => (false, t)
         end
  end.

(** [argNumber] with no operands: an index, whatever it names, is out of
    range.  Returns [goodArgNum], the remaining text and [found]. *)
Definition argNumber (s : string) : bool * string * bool :=
  match s with
  | String "[" _ => let '(ok, rest) := parseArgNumber s in (false, rest, ok)
  | _ => (true, s, false)
  end%char.

(** "Do we have width?": the text written, [goodArgNum], the remaining
    text and [afterIndex].  With no operands a [*] has no integer to take
    the width from. *)
Definition width (good afterIndex : bool) (s : string)
  : string * bool * string * bool :=
  match s with
  | String "*" t => (badWidthString, good, t, false)
  | _ =>
    let '(widPresent, t) := parsenum s in
    (EmptyString, good && negb (afterIndex && widPresent), t, afterIndex)
  end%char.

(** "Do we have precision?" *)
Definition precision (good afterIndex : bool) (s : string)
  : string * bool * string * bool :=
  match s with
  | String "." t =>
    let good := good && negb afterIndex in
    let '(g, t, afterIndex) := argNumber t in
    match t with
    | String "*" t' => (badPrecString, good && g, t', false)
    | _ => let '(_, t') := parsenum t in
           (EmptyString, good && g, t', afterIndex)
    end
  | _ => (EmptyString, good, s, afterIndex)
  end%char.

(** The verb of a directive and what is written for it: [%] for [%%], and
    otherwise, as no operand is left, a bad-index or missing-operand note.
    Returns the text written and the format that remains; [None] when the
    format ends before the verb and the loop is left. *)
Definition verb (good : bool) (s : string) : string * option string :=
  match s with
  | EmptyString => (noVerbString, None)
  | String _ _ =>
    let '(verb, size) := DecodeRuneInString s in
    let out :=
      if verb =? 37 then "%"
      else if negb good
      then percentBangString +:+ EncodeRune verb +:+ badIndexString
      else percentBangString +:+ EncodeRune verb +:+ missingString in
    (out, Some (drop size s))
  end.

(** One directive, read after its ['%']: flags, argument index, width,
    precision, argument index again, verb. *)
Definition directive (s : string) : string * option string :=
  let s := skip_flags s in
  let '(good, s, afterIndex) := argNumber s in
  let '(out_w, good, s, afterIndex) := width good afterIndex s in
  let '(out_p, good, s, afterIndex) := precision good afterIndex s in
  let '(good, s) :=
    if afterIndex then (good, s)
    else let '(g, t, _) := argNumber s in (good && g, t) in
  let '(out, next) := verb good s in
  (out_w +:+ out_p +:+ out, next).

(** The text before the first ['%'], and the text from it on. *)
Fixpoint literal (s : string) : string * string :=
  match s with
  | EmptyString => (EmptyString, EmptyString)
  | String c t =>
    if Ascii.eqb c "%" then (EmptyString, s)
    else let '(lit, rest) := literal t in (String c lit, rest)
  end.

(** The format loop.  Each round reads at least the ['%'] of a directive,
    so one round more than the format has bytes is always enough. *)
Fixpoint doPrintf (fuel : nat) (format : string) : string :=
  match fuel with
  | O => EmptyString
  | S fuel' =>
    let '(lit, rest) := literal format in
    match rest with
    | EmptyString => lit
    | String _ s =>
      let '(out, next) := directive s in
      lit +:+ out +:+
      match next with
      | Some s' => doPrintf fuel' s'
      | None => EmptyString
      end
    end
  end.

(** [fmt.Errorf(format)], called with a format and no operands. *)
Definition Errorf (format : string) : error :=
  Some (doPrintf (S (String.length format)) format).

End fmt.

(** ** regexp *)

Module regexp.
Import utf8.

(** The syntax tree of a compiled pattern, with the operators of
    [regexp/syntax] that patterns such as [^\S+@\S+$] and [^a.c$] parse
    to.  A character class is its list of inclusive rune ranges; a negated
    class is stored the way the parser stores it, as the ranges of its
    complement. *)
Inductive Regexp : Type :=
| OpEmptyMatch
| OpLiteral (c : rune)
| OpCharClass (ranges : list (rune * rune))
| OpAnyCharNotNL
| OpAnyChar
| OpBeginText
| OpEndText
| OpConcat (x y : Regexp)
| OpAlternate (x y : Regexp)
| OpStar (x : Regexp)
| OpPlus (x : Regexp)
| OpQuest (x : Regexp).

Definition inClass (ranges : list (rune * rune)) (r : rune) : bool :=
  existsb (fun '(lo, hi) => (lo <=? r) && (r <=? hi)) ranges.

(** A position in the text: whether it is the beginning of the text, and
    the runes still to be read. *)
Definition pos : Type := bool * list rune.

Definition one (ok : rune -> bool) (p : pos) : list pos :=
  match snd p with
  | r :: t => if ok r then [(false, t)] else []
  | [] => []
  end.

(** Zero or more rounds of [f], each of which reads at least one rune. *)
Fixpoint loop (f : pos -> list pos) (fuel : nat) (p : pos) : list pos :=
  p :: match fuel with
       | O => []
       | S k =>
         flat_map (loop f k)
           (List.filter (fun q => (length (snd q) <? length (snd p))%nat)
                        (f p))
       end.

(** [step re p]: the positions at which a match of [re] that begins at
    [p] can end. *)
Fixpoint step (re : Regexp) (p : pos) : list pos :=
  match re with
  | OpEmptyMatch => [p]
  | OpLiteral c => one (Z.eqb c) p
  | OpCharClass ranges => one (inClass ranges) p
  | OpAnyCharNotNL => one (fun r => negb (r =? 10)) p
  | OpAnyChar => one (fun _ => true) p
  | OpBeginText => if fst p then [p] else []
  | OpEndText => match snd p with [] => [p] | _ :: _ => [] end
  | OpConcat x y => flat_map (step y) (step x p)
  | OpAlternate x y => (step x p ++ step y p)%list
  | OpStar x => loop (step x) (length (snd p)) p
  | OpPlus x =>
    flat_map (fun q => loop (step x) (length (snd q)) q) (step x p)
  | OpQuest x => (step x p ++ [p])%list
  end.

(** The positions at which a match may begin: every rune boundary of the
    text, its end included. *)
Fixpoint starts (atBegin : bool) (rs : list rune) : list pos :=
  (atBegin, rs) ::
  match rs with
  | [] => []
  | _ :: t => starts false t
  end.

Definition matchRunes (re : Regexp) (rs : list rune) : bool :=
  existsb (fun p => match step re p with [] => false | _ :: _ => true end)
          (starts true rs).

(** [re.MatchString(s)]: whether [s] contains a match of [re]. *)
Definition MatchString (re : Regexp) (s : string) : bool :=
  matchRunes re (runes s).

End regexp.

(** ** Declarations shared by the two source files

    Both files declare [Errors], [EmailRx], [Lengthable] and
    [NumericComparable] with the same text; they are embedded once. *)

Abbreviation Errors := (gmap string (list string)).

(** [regexp.MustCompile(`^\S+@\S+$`)]: the class [\S] is the complement of
    [[\t\n\f\r ]]. *)
Definition notSpaceRanges : list (utf8.rune * utf8.rune) :=
  [(0, 8); (11, 11); (14, 31); (33, 1114111)].

Definition notSpace : regexp.Regexp := regexp.OpCharClass notSpaceRanges.

Definition EmailRx : regexp.Regexp :=
  regexp.OpConcat regexp.OpBeginText
    (regexp.OpConcat (regexp.OpPlus notSpace)
      (regexp.OpConcat (regexp.OpLiteral 64)
        (regexp.OpConcat (regexp.OpPlus notSpace) regexp.OpEndText))).

(** [Lengthable[Q, U]]: [[]Q | map[U]Q]. *)
Inductive Lengthable (Q U : Type) `{Countable U} : Type :=
| Slice (l : list Q)
| Map (m : gmap U Q).

Arguments Slice {Q U _ _} l.
Arguments Map {Q U _ _} m.

(** The builtin [len]. *)
Definition len {Q U : Type} `{Countable U} (v : Lengthable Q U) : Z :=
  match v with
  | Slice l => Z.of_nat (length l)
  | Map m => Z.of_nat (size m)
  end.

Definition lenString (v : string) : Z := Z.of_nat (String.length v).

(** [NumericComparable]: the integer types a numeric range check accepts. *)
Inductive NumericComparable : Set :=
| Int | Int8 | Int16 | Int32 | Int64
| Uint | Uint8 | Uint16 | Uint32 | Uint64.

Definition minOf (T : NumericComparable) : Z :=
  match T with
  | Int | Int64 => - 2 ^ 63
  | Int8 => - 2 ^ 7
  | Int16 => - 2 ^ 15
  | Int32 => - 2 ^ 31
  | Uint | Uint8 | Uint16 | Uint32 | Uint64 => 0
  end.

Definition maxOf (T : NumericComparable) : Z :=
  match T with
  | Int | Int64 => 2 ^ 63 - 1
  | Int8 => 2 ^ 7 - 1
  | Int16 => 2 ^ 15 - 1
  | Int32 => 2 ^ 31 - 1
  | Uint | Uint64 => 2 ^ 64 - 1
  | Uint8 => 2 ^ 8 - 1
  | Uint16 => 2 ^ 16 - 1
  | Uint32 => 2 ^ 32 - 1
  end.

Definition inRange (T : NumericComparable) (z : Z) : bool :=
  (minOf T <=? z) && (z <=? maxOf T).

(** A value of the integer type [T]. *)
Record num (T : NumericComparable) : Set :=
  Num { val : Z; val_ok : inRange T val = true }.

Arguments Num {T} val val_ok.
Arguments val {T} _.
Arguments val_ok {T} _.

(** The extreme values of two of the types. *)
Definition int8_min : num Int8 := @Num Int8 (-128) eq_refl.
Definition int8_max : num Int8 := @Num Int8 127 eq_refl.
Definition uint64_zero : num Uint64 := @Num Uint64 0 eq_refl.
Definition uint64_max : num Uint64 := @Num Uint64 18446744073709551615 eq_refl.

(** ** The package file: side-effecting checks *)

Module forms.

Definition AddError (field : string) (errors : Errors) (msg : string)
  : Errors :=
  <[field := (default [] (errors !! field) ++ [msg])%list]> errors.

Definition IsStringLength (field : string) (errors : Errors) (v : string)
           (m n : Z) : Errors :=
  let msg :=
    if m =? n
    then "Must be exactly " +:+ fmt.formatInt m +:+ " characters long"
    else "Must be between " +:+ fmt.formatInt m +:+ " and "
         +:+ fmt.formatInt n +:+ " characters long" in
  if (lenString v <? m) || (lenString v >? n)
  then AddError field errors msg
  else errors.

Definition IsNumberBetween {T : NumericComparable} (field : string)
           (errors : Errors) (v m n : num T) : Errors :=
  let msg :=
    if val m =? val n
    then "Must be exactly " +:+ fmt.formatInt (val m) +:+ ", but was "
         +:+ fmt.formatInt (val v)
    else "Must be between " +:+ fmt.formatInt (val m) +:+ " and "
         +:+ fmt.formatInt (val n) +:+ ", but was "
         +:+ fmt.formatInt (val v) in
  if (val v <? val m) || (val v >? val n)
  then AddError field errors msg
  else errors.

Definition IsSize {Q U : Type} `{Countable U} (field : string)
           (errors : Errors) (v : Lengthable Q U) (m n : Z) : Errors :=
  let msg :=
    if m =? n
    then "Must have exactly " +:+ fmt.formatInt m +:+ " entries, but had "
         +:+ fmt.formatInt (len v)
    else "Must have between " +:+ fmt.formatInt m +:+ " and "
         +:+ fmt.formatInt n +:+ " entries, but had "
         +:+ fmt.formatInt (len v) in
  if (len v <? m) || (len v >? n)
  then AddError field errors msg
  else errors.

Definition IsMinSize {Q U : Type} `{Countable U} (field : string)
           (errors : Errors) (v : Lengthable Q U) (n : Z) : Errors :=
  let entry := if n >? 1 then "entries" else "entry" in
  let msg :=
    "Must have a minimum of " +:+ fmt.formatInt n +:+ " " +:+ entry
    +:+ ", but had " +:+ fmt.formatInt (len v) in
  if len v <? n
  then AddError field errors msg
  else errors.

Definition IsRegex (field : string) (errors : Errors) (v : string)
           (rx : regexp.Regexp) (message : string) : Errors :=
  if negb (regexp.MatchString rx v)
  then AddError field errors message
  else errors.

Definition IsEmail (field : string) (errors : Errors) (v : string)
  : Errors :=
  IsRegex field errors v EmailRx "Email address is invalid".

End forms.

(** ** validate/validation.go: checks wrapped in [Validate] *)

Module validate.

Definition Validate (field : string) (errors : Errors) (err : fmt.error)
  : Errors :=
  match err with
  | Some e => <[field := (default [] (errors !! field) ++ [e])%list]> errors
  | None => errors
  end.

Definition StringLength (field : string) (errors : Errors) (v : string)
           (m n : Z) : Errors :=
  Validate field errors
    ((fun (v : string) (m n : Z) =>
        let msg :=
          if m =? n
          then "Must be exactly " +:+ fmt.formatInt m +:+ " characters long"
          else "Must be between " +:+ fmt.formatInt m +:+ " and "
               +:+ fmt.formatInt n +:+ " characters long" in
        if (lenString v <? m) || (lenString v >? n)
        then fmt.Errorf msg
        else None) v m n).

Definition NumberBetween {T : NumericComparable} (field : string)
           (errors : Errors) (v m n : num T) : Errors :=
  Validate field errors
    ((fun (v m n : num T) =>
        let msg :=
          if val m =? val n
          then "Must be exactly " +:+ fmt.formatInt (val m)
               +:+ ", but was " +:+ fmt.formatInt (val v)
          else "Must be between " +:+ fmt.formatInt (val m) +:+ " and "
               +:+ fmt.formatInt (val n) +:+ ", but was "
               +:+ fmt.formatInt (val v) in
        if (val v <? val m) || (val v >? val n)
        then fmt.Errorf msg
        else None) v m n).

Definition Size {Q U : Type} `{Countable U} (field : string)
           (errors : Errors) (v : Lengthable Q U) (m n : Z) : Errors :=
  Validate field errors
    ((fun (v : Lengthable Q U) (m n : Z) =>
        let msg :=
          if m =? n
          then "Must have exactly " +:+ fmt.formatInt m
               +:+ " entries, but had " +:+ fmt.formatInt (len v)
          else "Must have between " +:+ fmt.formatInt m +:+ " and "
               +:+ fmt.formatInt n +:+ " entries, but had "
               +:+ fmt.formatInt (len v) in
        if (len v <? m) || (len v >? n)
        then fmt.Errorf msg
        else None) v m n).

Definition MinSize {Q U : Type} `{Countable U} (field : string)
           (errors : Errors) (v : Lengthable Q U) (n : Z) : Errors :=
  Validate field errors
    ((fun (v : Lengthable Q U) (n : Z) =>
        let entry := if n >? 1 then "entries" else "entry" in
        let msg :=
          "Must have a minimum of " +:+ fmt.formatInt n +:+ " " +:+ entry
          +:+ ", but had " +:+ fmt.formatInt (len v) in
        if len v <? n
        then fmt.Errorf msg
        else None) v n).

Definition Regex (field : string) (errors : Errors) (v : string)
           (rx : regexp.Regexp) (message : string) : Errors :=
  Validate field errors
    ((fun (rx : regexp.Regexp) (value message : string) =>
        if negb (regexp.MatchString rx value)
        then fmt.Errorf message
        else None) rx v message).

Definition Email (field : string) (errors : Errors) (v : string) : Errors :=
  Validate field errors
    ((fun (rx : regexp.Regexp) (value message : string) =>
        if negb (regexp.MatchString rx value)
        then fmt.Errorf message
        else None) EmailRx v "Email address is invalid").

End validate.

(** ** The checks as data

    A check with its value and constraint parameters, so that a statement
    can range over every check of either file. *)

Inductive Check : Type :=
| CStringLength (v : string) (m n : Z)
| CNumberBetween (T : NumericComparable) (v m n : num T)
| CSize (Q U : Type) `{Countable U} (v : Lengthable Q U) (m n : Z)
| CMinSize (Q U : Type) `{Countable U} (v : Lengthable Q U) (n : Z)
| CRegex (v : string) (rx : regexp.Regexp) (message : string)
| CEmail (v : string).

(** The two families: the [Is*] functions of the package file, and the
    functions of [validate/validation.go]. *)
Inductive Family : Set := Direct | Wrapped.

Definition run (fam : Family) (c : Check) (field : string) (errors : Errors)
  : Errors :=
  match fam, c with
  | Direct, CStringLength v m n => forms.IsStringLength field errors v m n
  | Direct, CNumberBetween T v m n => forms.IsNumberBetween field errors v m n
  | Direct, CSize Q U v m n => forms.IsSize field errors v m n
  | Direct, CMinSize Q U v n => forms.IsMinSize field errors v n
  | Direct, CRegex v rx message => forms.IsRegex field errors v rx message
  | Direct, CEmail v => forms.IsEmail field errors v
  | Wrapped, CStringLength v m n => validate.StringLength field errors v m n
  | Wrapped, CNumberBetween T v m n => validate.NumberBetween field errors v m n
  | Wrapped, CSize Q U v m n => validate.Size field errors v m n
  | Wrapped, CMinSize Q U v n => validate.MinSize field errors v n
  | Wrapped, CRegex v rx message => validate.Regex field errors v rx message
  | Wrapped, CEmail v => validate.Email field errors v
  end.

(** ** What the specification says of a check *)

(** The violation condition of each check, as the specification's table
    gives it. *)
Definition violated (c : Check) : bool :=
  match c with
  | CStringLength v m n => (lenString v <? m) || (n <? lenString v)
  | CNumberBetween _ v m n => (val v <? val m) || (val n <? val v)
  | CSize _ _ v m n => (len v <? m) || (n <? len v)
  | CMinSize _ _ v n => len v <? n
  | CRegex v rx _ => negb (regexp.MatchString rx v)
  | CEmail v => negb (regexp.MatchString EmailRx v)
  end.

(** [appends field msg before after]: [after] is [before] with the one
    message [msg] added at the end of the sequence under [field], and
    nothing else changed. *)
Definition appends (field msg : string) (before after : Errors) : Prop :=
  after !! field = Some (default [] (before !! field) ++ [msg])%list ∧
  ∀ g : string, g ≠ field → after !! g = before !! g.

Definition appended (field : string) (before after : Errors) : Prop :=
  ∃ msg : string, appends field msg before after.

(** The phrasing of the length check with [word] for its unit:
    with "characters" it is the message of the string-length check. *)
Definition lengthPhrasing (word : string) (m n : Z) : string :=
  if m =? n
  then "Must be exactly " +:+ fmt.formatInt m +:+ " " +:+ word +:+ " long"
  else "Must be between " +:+ fmt.formatInt m +:+ " and " +:+ fmt.formatInt n
       +:+ " " +:+ word +:+ " long".

(** The message of the size-range check as the fourth claim quotes it. *)
Definition claimedSizeMessage (m n : Z) : string :=
  if m =? n
  then "Must have exactly " +:+ fmt.formatInt m +:+ " entries"
  else "Must have between " +:+ fmt.formatInt m +:+ " and "
       +:+ fmt.formatInt n +:+ " entries".

(** Bytes of a string. *)
Fixpoint bytes (s : string) : list ascii :=
  match s with
  | EmptyString => []
  | String c t => c :: bytes t
  end.

(** The bytes [\t], [\n], [\f], [\r] and the space. *)
Definition isSpace (c : ascii) : bool :=
  let b := utf8.byte c in
  (b =? 9) || (b =? 10) || (b =? 12) || (b =? 13) || (b =? 32).

Definition hasSpace (v : string) : bool := existsb isSpace (bytes v).

Definition isAt (c : ascii) : bool := utf8.byte c =? 64.

Definition countAt (v : string) : nat := length (filter (λ c, isAt c = true) (bytes v)).

(** The email shape as the sixth claim words it: no whitespace, and exactly
    one [@], with at least one byte before it and after it. *)
Definition oneAtShape (v : string) : bool :=
  negb (hasSpace v) && (countAt v =? 1)%nat &&
  match bytes v with
  | [] => false
  | c :: t => negb (isAt c) && negb (isAt (List.last t c))
  end.

(** The email shape the pattern [^\S+@\S+$] accepts: no whitespace, and some
    [@] with at least one byte before it and after it. *)
Definition emailShape (v : string) : Prop :=
  hasSpace v = false ∧
  ∃ x y : string, v = x +:+ "@" +:+ y ∧ x ≠ "" ∧ y ≠ "".

(** The pattern [^a.c$] of the specification's pattern-check example. *)
Definition axcRx : regexp.Regexp :=
  regexp.OpConcat regexp.OpBeginText
    (regexp.OpConcat (regexp.OpLiteral 97)
      (regexp.OpConcat regexp.OpAnyCharNotNL
        (regexp.OpConcat (regexp.OpLiteral 99) regexp.OpEndText))).

Definition nonSpaceRune (r : utf8.rune) : bool :=
  regexp.inClass notSpaceRanges r.

(** A byte that is not ASCII. *)
Definition high (c : ascii) : Prop := 128 ≤ utf8.byte c.

(** [Decodes s rs]: the string [s] splits into single ASCII bytes, each its
    own rune, and non-empty blocks of non-ASCII bytes, each read as one rune
    that is not ASCII either; [rs] is the runes in order. *)
Inductive Decodes : string → list utf8.rune → Prop :=
| Decodes_nil : Decodes EmptyString []
| Decodes_ascii (c : ascii) (t : string) (rs : list utf8.rune) :
    utf8.byte c < 128 → Decodes t rs →
    Decodes (String c t) (utf8.byte c :: rs)
| Decodes_high (c : ascii) (blk rest : string) (r : utf8.rune)
               (rs : list utf8.rune) :
    high c → Forall high (bytes blk) → 128 ≤ r ≤ 1114111 →
    Decodes rest rs →
    Decodes (String c (blk +:+ rest)) (r :: rs).

(** No ['%'] among the bytes of a string. *)
Definition noPercent (s : string) : bool :=
  forallb (λ c, negb (Ascii.eqb c "%")) (bytes s).

(** A check whose caller-supplied message, if it takes one, has no ['%']. *)
Definition percentFree (c : Check) : bool :=
  match c with
  | CRegex _ _ message => noPercent message
  | _ => true
  end.

(** ** A validation pass

    The source has no caller of its own; a caller allocates an accumulator
    and makes its calls one after the other on it.  A call is a check of
    either family with the field it is made for. *)

Definition call : Type := Family * Check * string.

Definition pass (calls : list call) (errors : Errors) : Errors :=
  fold_left (λ e '(fam, c, field), run fam c field e) calls errors.

(** What a check reports on its own: the messages it leaves in an empty
    accumulator. *)
Definition report (fam : Family) (c : Check) : list string :=
  default [] (run fam c "" ∅ !! "").

(** The reports of the calls made for [field], in the order of the calls. *)
Definition reports (field : string) (calls : list call) : list string :=
  flat_map (λ '(fam, c, g), if decide (g = field) then report fam c else [])
           calls.

(** A message with every ['%'] doubled. *)
Fixpoint escapePercent (s : string) : string :=
  match s with
  | EmptyString => EmptyString
  | String c t =>
    if Ascii.eqb c "%" then String "%" (String "%" (escapePercent t))
    else String c (escapePercent t)
  end.

(** The least and the greatest value of each integer type. *)
Definition lowest (T : NumericComparable) : num T :=
  match T with
  | Int => @Num Int (minOf Int) eq_refl
  | Int8 => @Num Int8 (minOf Int8) eq_refl
  | Int16 => @Num Int16 (minOf Int16) eq_refl
  | Int32 => @Num Int32 (minOf Int32) eq_refl
  | Int64 => @Num Int64 (minOf Int64) eq_refl
  | Uint => @Num Uint (minOf Uint) eq_refl
  | Uint8 => @Num Uint8 (minOf Uint8) eq_refl
  | Uint16 => @Num Uint16 (minOf Uint16) eq_refl
  | Uint32 => @Num Uint32 (minOf Uint32) eq_refl
  | Uint64 => @Num Uint64 (minOf Uint64) eq_refl
  end.

Definition highest (T : NumericComparable) : num T :=
  match T with
  | Int => @Num Int (maxOf Int) eq_refl
  | Int8 => @Num Int8 (maxOf Int8) eq_refl
  | Int16 => @Num Int16 (maxOf Int16) eq_refl
  | Int32 => @Num Int32 (maxOf Int32) eq_refl
  | Int64 => @Num Int64 (maxOf Int64) eq_refl
  | Uint => @Num Uint (maxOf Uint) eq_refl
  | Uint8 => @Num Uint8 (maxOf Uint8) eq_refl
  | Uint16 => @Num Uint16 (maxOf Uint16) eq_refl
  | Uint32 => @Num Uint32 (maxOf Uint32) eq_refl
  | Uint64 => @Num Uint64 (maxOf Uint64) eq_refl
  end.

(** * Properties *)

(** ** The accumulator *)

Section accumulator.
Implicit Types (field msg : string) (errors : Errors).

Lemma AddError_lookup field errors msg :
  forms.AddError field errors msg !! field
  = Some (default [] (errors !! field) ++ [msg])%list.
Proof. unfold forms.AddError. by rewrite lookup_insert_eq. Qed.

Lemma AddError_lookup_ne field errors msg (g : string) :
  g ≠ field → forms.AddError field errors msg !! g = errors !! g.
Proof. intros Hne. unfold forms.AddError. by rewrite lookup_insert_ne. Qed.

Lemma appends_AddError field errors msg :
  appends field msg errors (forms.AddError field errors msg).
Proof.
  split; [apply AddError_lookup | intros g Hg; by apply AddError_lookup_ne].
Qed.

(** The message sequence under the field grows, so the map has changed. *)
Lemma appends_changes field msg errors errors' :
  appends field msg errors errors' → errors' ≠ errors.
Proof.
  intros [Hf _] ->. destruct (errors !! field) as [l|] eqn:E; simpl in Hf.
  - injection Hf as Hf. apply (f_equal length) in Hf.
    rewrite length_app in Hf. simpl in Hf. lia.
  - discriminate.
Qed.

Lemma appends_inv field msg errors errors' :
  appends field msg errors errors' →
  errors' = forms.AddError field errors msg.
Proof.
  intros [Hf Hg]. apply map_eq. intros g.
  destruct (decide (g = field)) as [->|Hne].
  - by rewrite AddError_lookup.
  - by rewrite AddError_lookup_ne, Hg.
Qed.

Lemma Validate_error field errors msg :
  validate.Validate field errors (Some msg)
  = forms.AddError field errors msg.
Proof. reflexivity. Qed.

Lemma Validate_nil field errors :
  validate.Validate field errors None = errors.
Proof. reflexivity. Qed.

End accumulator.

(** ** Formatting *)

Section formatting.

Lemma noPercent_app (a b : string) :
  noPercent (a +:+ b) = noPercent a && noPercent b.
Proof.
  unfold noPercent. induction a as [|c a IH]; simpl; [done|].
  rewrite IH. by rewrite andb_assoc.
Qed.

Lemma noPercent_pretty_N_go (x : N) (s : string) :
  noPercent s = true → noPercent (pretty_N_go x s) = true.
Proof.
  revert s. induction (N.lt_wf_0 x) as [x _ IH]. intros s Hs.
  destruct (decide (x = 0)%N) as [->|Hx].
  - by rewrite pretty_N_go_0.
  - rewrite pretty_N_go_step by lia. apply IH.
    + apply N.div_lt; lia.
    + unfold noPercent in *. simpl. rewrite Hs.
      unfold pretty_N_char. by repeat case_match.
Qed.

Lemma noPercent_pretty_N (x : N) : noPercent (pretty x) = true.
Proof.
  unfold pretty, pretty_N. case_decide; [done|].
  by apply noPercent_pretty_N_go.
Qed.

(** A formatted integer is made of digits and a sign. *)
Lemma noPercent_formatInt (x : Z) : noPercent (fmt.formatInt x) = true.
Proof.
  unfold fmt.formatInt, pretty, pretty_Z.
  destruct x as [|p|p]; [done| |].
  - apply noPercent_pretty_N.
  - rewrite noPercent_app. simpl. apply (noPercent_pretty_N (Npos p)).
Qed.

Lemma literal_noPercent (s : string) :
  noPercent s = true → fmt.literal s = (s, EmptyString).
Proof.
  unfold noPercent. induction s as [|c s IH]; simpl; [done|].
  intros [Hc Hs]%andb_true_iff. apply negb_true_iff in Hc.
  rewrite Hc. by rewrite (IH Hs).
Qed.

(** A format without ['%'] is written out as it is. *)
Lemma Errorf_noPercent (s : string) :
  noPercent s = true → fmt.Errorf s = Some s.
Proof.
  intros Hs. unfold fmt.Errorf. simpl. by rewrite literal_noPercent.
Qed.

End formatting.

Ltac no_percent :=
  repeat rewrite noPercent_app; repeat rewrite noPercent_formatInt; reflexivity.

(** ** Decoding UTF-8 *)

Section decoding.
Import utf8.

Lemma byte_bounds (c : ascii) : 0 ≤ byte c < 256.
Proof.
  unfold byte. pose proof (N_ascii_bounded c). lia.
Qed.

Lemma lor_bounds (a b : Z) : 0 ≤ a → 0 ≤ b → a ≤ Z.lor a b ≤ a + b.
Proof.
  intros Ha Hb. split.
  - apply (Z.ldiff_le a (Z.lor a b)).
    + by apply Z.lor_nonneg.
    + apply Z.bits_inj'. intros i Hi.
      rewrite Z.ldiff_spec, Z.lor_spec, Z.bits_0.
      by destruct (Z.testbit a i), (Z.testbit b i).
  - pose proof (Z.add_lor_land a b).
    assert (0 ≤ Z.land a b) by (apply Z.land_nonneg; by left). lia.
Qed.

Lemma lor_bounds_r (a b : Z) : 0 ≤ a → 0 ≤ b → b ≤ Z.lor a b.
Proof. intros. rewrite Z.lor_comm. by apply lor_bounds. Qed.

Lemma first_Some (b : Z) (sz : nat) (lo hi : Z) :
  first b = Some (sz, (lo, hi)) →
  128 ≤ lo ∧ hi ≤ 191 ∧
  ((sz = 2%nat ∧ 194 ≤ b ≤ 223) ∨
   (sz = 3%nat ∧ 224 ≤ b ≤ 239 ∧ (b = 224 → 160 ≤ lo)) ∨
   (sz = 4%nat ∧ 240 ≤ b ≤ 244 ∧ (b = 240 → 144 ≤ lo) ∧ (b = 244 → hi ≤ 143))).
Proof.
  unfold first. intros H.
  repeat match type of H with
         | (if ?c then _ else _) = _ => destruct c eqn:?
         end; simplify_eq; lia.
Qed.

Lemma first_None (b : Z) : first b = None → b < 194 ∨ 244 < b.
Proof.
  unfold first. intros H.
  repeat match type of H with
         | (if ?c then _ else _) = _ => destruct c eqn:?
         end; simplify_eq; lia.
Qed.

Lemma within_spec lo hi c : within lo hi c = true ↔ lo ≤ byte c ≤ hi.
Proof. unfold within. rewrite andb_true_iff, !Z.leb_le. tauto. Qed.

Lemma land_mask (x : Z) (k : Z) : 0 ≤ k → Z.land x (Z.ones k) = x mod 2 ^ k.
Proof. apply Z.land_ones. Qed.

Ltac rune_bounds :=
  change 63 with (Z.ones 6); change 31 with (Z.ones 5);
  change 15 with (Z.ones 4); change 7 with (Z.ones 3);
  rewrite ?land_mask by lia; rewrite ?Z.shiftl_mul_pow2 by lia;
  repeat match goal with
         | |- context [Z.lor ?a ?b] =>
           lazymatch a with context [Z.lor _ _] => fail | _ => idtac end;
           lazymatch b with context [Z.lor _ _] => fail | _ => idtac end;
           let H := fresh in
           let H' := fresh in
           assert (H : 0 ≤ a) by (Z.div_mod_to_equations; lia);
           assert (H' : 0 ≤ b) by (Z.div_mod_to_equations; lia);
           pose proof (lor_bounds a b H H');
           pose proof (lor_bounds_r a b H H');
           generalize dependent (Z.lor a b); intros
         end;
  Z.div_mod_to_equations; lia.

Lemma DecodeRune_cases (s0 : ascii) (t : string) :
  ∃ (r : rune) (blk rest : string),
    DecodeRuneInString (String s0 t) = (r, S (String.length blk)) ∧
    t = blk +:+ rest ∧
    ((byte s0 < 128 ∧ r = byte s0 ∧ blk = EmptyString) ∨
     (128 ≤ byte s0 ∧ 128 ≤ r ≤ 1114111 ∧ Forall high (bytes blk))).
Proof.
  pose proof (byte_bounds s0) as Hb0.
  assert (Hfail : 128 ≤ byte s0 → ∃ (r : rune) (blk rest : string),
    (RuneError, 1%nat) = (r, S (String.length blk)) ∧
    t = blk +:+ rest ∧
    ((byte s0 < 128 ∧ r = byte s0 ∧ blk = EmptyString) ∨
     (128 ≤ byte s0 ∧ 128 ≤ r ≤ 1114111 ∧ Forall high (bytes blk)))).
  { intros. exists RuneError, EmptyString, t. repeat split.
    right. repeat split; [done|by vm_compute|by vm_compute|constructor]. }
  unfold DecodeRuneInString.
  destruct (first (byte s0)) as [[sz [lo hi]]|] eqn:F.
  - apply first_Some in F as (Hlo & Hhi & F).
    assert (128 ≤ byte s0) by lia.
    destruct (String.length (String s0 t) <? sz)%nat; [by apply Hfail|].
    destruct t as [|s1 t1]; [by apply Hfail|].
    destruct (within lo hi s1) eqn:W1; simpl; [|by apply Hfail].
    apply within_spec in W1.
    destruct (sz <=? 2)%nat eqn:S2.
    { eexists _, (String s1 EmptyString), t1. split; [reflexivity|].
      split; [reflexivity|]. right.
      apply Nat.leb_le in S2.
      assert (194 ≤ byte s0 ≤ 223) by lia.
      split; [done|]. split.
      - rune_bounds.
      - repeat constructor. unfold high. lia. }
    destruct t1 as [|s2 t2]; [by apply Hfail|].
    destruct (within 128 191 s2) eqn:W2; simpl; [|by apply Hfail].
    apply within_spec in W2.
    destruct (sz <=? 3)%nat eqn:S3.
    { eexists _, (String s1 (String s2 EmptyString)), t2.
      split; [reflexivity|]. split; [reflexivity|]. right.
      apply Nat.leb_le in S3. apply Nat.leb_gt in S2.
      assert (224 ≤ byte s0 ≤ 239 ∧ (byte s0 = 224 → 160 ≤ lo)) as [??] by lia.
      split; [done|]. split.
      - rune_bounds.
      - repeat constructor; unfold high; lia. }
    destruct t2 as [|s3 t3]; [by apply Hfail|].
    destruct (within 128 191 s3) eqn:W3; simpl; [|by apply Hfail].
    apply within_spec in W3.
    eexists _, (String s1 (String s2 (String s3 EmptyString))), t3.
    split; [reflexivity|]. split; [reflexivity|]. right.
    apply Nat.leb_gt in S2, S3.
    assert (240 ≤ byte s0 ≤ 244 ∧ (byte s0 = 240 → 144 ≤ lo) ∧
            (byte s0 = 244 → hi ≤ 143)) as (? & ? & ?) by lia.
    split; [done|]. split.
    + rune_bounds.
    + repeat constructor; unfold high; lia.
  - apply first_None in F.
    destruct (byte s0 <? 128) eqn:E.
    + apply Z.ltb_lt in E. exists (byte s0), EmptyString, t.
      repeat split. left. done.
    + apply Z.ltb_ge in E. by apply Hfail.
Qed.

Lemma drop_block (c : ascii) (blk rest : string) :
  drop (S (String.length blk)) (String c (blk +:+ rest)) = rest.
Proof. simpl. induction blk as [|b blk IH]; [by destruct rest|apply IH]. Qed.

Lemma length_append (a b : string) :
  String.length (a +:+ b) = (String.length a + String.length b)%nat.
Proof. induction a as [|c a IH]; simpl; [done|by rewrite IH]. Qed.

(** With fuel for every byte, the decoding loop reads the whole string. *)
Lemma runes_go_Decodes (fuel : nat) (s : string) :
  (String.length s ≤ fuel)%nat → Decodes s (runes_go fuel s).
Proof.
  revert s. induction fuel as [|fuel IH]; intros [|c t] Hlen; simpl in Hlen;
    try lia; try constructor.
  destruct (DecodeRune_cases c t) as (r & blk & rest & Hd & -> & Hc).
  unfold runes_go; fold runes_go. rewrite Hd, drop_block.
  rewrite length_append in Hlen.
  assert (Decodes rest (runes_go fuel rest)) as Hrest by (apply IH; lia).
  destruct Hc as [(? & -> & ->)|(? & ? & ?)].
  - by constructor.
  - by constructor.
Qed.

Lemma runes_Decodes (s : string) : Decodes s (runes s).
Proof. by apply runes_go_Decodes. Qed.

(** More fuel than bytes changes nothing. *)
Lemma runes_go_enough (fuel : nat) (s : string) :
  (String.length s ≤ fuel)%nat → runes_go fuel s = runes s.
Proof.
  unfold runes.
  assert (∀ n m s, (String.length s ≤ n)%nat → (String.length s ≤ m)%nat →
                   runes_go n s = runes_go m s) as Hnm.
  { clear. induction n as [|n IH]; intros [|m] [|c t] Hn Hm; simpl in Hn, Hm;
      try lia; try reflexivity.
    destruct (DecodeRune_cases c t) as (r & blk & rest & Hd & -> & _).
    unfold runes_go; fold runes_go. rewrite Hd, drop_block.
    rewrite length_append in Hn, Hm. f_equal. apply IH; lia. }
  intros. by apply Hnm.
Qed.

End decoding.

(** ** Runes and bytes *)

Section decoded.
Import utf8.

Lemma Decodes_empty (s : string) (rs : list rune) :
  Decodes s rs → (s = EmptyString ↔ rs = []).
Proof. by destruct 1. Qed.

Lemma byte_inj (c d : ascii) : byte c = byte d → c = d.
Proof.
  unfold byte. intros H%N2Z.inj.
  by rewrite <- (ascii_N_embedding c), <- (ascii_N_embedding d), H.
Qed.

Lemma bytes_app (a b : string) : bytes (a +:+ b) = (bytes a ++ bytes b)%list.
Proof. induction a as [|c a IH]; simpl; [done|by rewrite IH]. Qed.

Lemma hasSpace_app (a b : string) :
  hasSpace (a +:+ b) = hasSpace a || hasSpace b.
Proof. unfold hasSpace. by rewrite bytes_app, existsb_app. Qed.

Lemma hasSpace_high (blk : string) :
  Forall high (bytes blk) → hasSpace blk = false.
Proof.
  unfold hasSpace. induction 1 as [|c l Hc _ IH]; simpl; [done|].
  rewrite IH, orb_false_r. unfold isSpace, high in *.
  repeat (apply orb_false_iff; split); apply Z.eqb_neq; lia.
Qed.

Lemma nonSpaceRune_ascii (c : ascii) :
  byte c < 128 → nonSpaceRune (byte c) = negb (isSpace c).
Proof.
  intros Hc. pose proof (byte_bounds c).
  unfold nonSpaceRune, notSpaceRanges, regexp.inClass, isSpace. simpl.
  repeat match goal with
         | |- context [Z.leb ?a ?b] => destruct (Z.leb_spec a b)
         | |- context [Z.eqb ?a ?b] => destruct (Z.eqb_spec a b)
         end; simpl; try reflexivity; lia.
Qed.

Lemma nonSpaceRune_high (r : rune) : 128 ≤ r ≤ 1114111 → nonSpaceRune r = true.
Proof.
  intros Hr. unfold nonSpaceRune, notSpaceRanges, regexp.inClass. simpl.
  repeat match goal with
         | |- context [Z.leb ?a ?b] => destruct (Z.leb_spec a b)
         end; simpl; try reflexivity; lia.
Qed.

(** The runes of a string are free of whitespace exactly when its bytes
    are. *)
Lemma Decodes_nonSpace (s : string) (rs : list rune) :
  Decodes s rs → forallb nonSpaceRune rs = negb (hasSpace s).
Proof.
  induction 1 as [|c t rs Hc _ IH|c blk rest r rs Hc Hblk Hr _ IH]; simpl.
  - done.
  - rewrite IH, nonSpaceRune_ascii by done. unfold hasSpace. simpl.
    by rewrite negb_orb.
  - rewrite IH, nonSpaceRune_high by done.
    change (String c (blk +:+ rest)) with (String c blk +:+ rest).
    rewrite hasSpace_app, (hasSpace_high (String c blk)); [done|].
    by constructor.
Qed.

Lemma append_cons (c : ascii) (a b : string) :
  String c a +:+ b = String c (a +:+ b).
Proof. reflexivity. Qed.

Lemma append_nil (b : string) : EmptyString +:+ b = b.
Proof. reflexivity. Qed.

Lemma append_assoc (a b c : string) : (a +:+ b) +:+ c = a +:+ (b +:+ c).
Proof.
  induction a as [|x a IH]; [done|]. rewrite !append_cons. by f_equal.
Qed.

(** A block of non-ASCII bytes in front of the text cannot reach past an
    ['@']. *)
Lemma high_block_before_at (blk rest x y : string) :
  Forall high (bytes blk) →
  blk +:+ rest = x +:+ String "@" y →
  ∃ x' : string, x = blk +:+ x' ∧ rest = x' +:+ String "@" y.
Proof.
  revert x. induction blk as [|b blk IH]; intros x Hblk Heq;
    rewrite ?append_nil, ?append_cons in *.
  - by exists x.
  - apply Forall_cons in Hblk as [Hb Hblk].
    destruct x as [|c x]; rewrite ?append_nil, ?append_cons in Heq;
      simplify_eq.
    + unfold high in Hb. vm_compute in Hb. by destruct Hb.
    + destruct (IH x Hblk) as (x' & -> & ->); [done|]. by exists x'.
Qed.

(** The runes of a text around an ['@'] are the runes before it, the rune
    64, and the runes after it. *)
Lemma Decodes_split (x y : string) (rs : list rune) :
  Decodes (x +:+ String "@" y) rs →
  ∃ a b : list rune, rs = (a ++ 64 :: b)%list ∧ Decodes x a ∧ Decodes y b.
Proof.
  remember (String.length x) as k eqn:Hk. revert x rs Hk.
  induction (lt_wf k) as [k _ IH]. intros x rs -> H.
  destruct x as [|c x]; rewrite ?append_nil, ?append_cons in H.
  - inversion H as [|c' t' rs' Hc Ht|c' blk rest r rs' Hc]; subst.
    + exists [], rs'. repeat split; [constructor|done].
    + unfold high in Hc. vm_compute in Hc. by destruct Hc.
  - inversion H as [|c' t' rs' Hc Ht|c' blk rest r rs' Hc Hblk Hr Hrest Heq];
      subst.
    + destruct (IH (String.length x)) with (x := x) (rs := rs')
        as (a & b & -> & Ha & Hb); [simpl; lia|done|done|].
      exists (byte c :: a), b. repeat split; [by constructor|done].
    + destruct (high_block_before_at blk rest x y Hblk) as (x' & -> & ->);
        [done|].
      destruct (IH (String.length x')) with (x := x') (rs := rs')
        as (a & b & -> & Ha & Hb);
        [simpl; rewrite length_append; lia|done|done|].
      exists (r :: a), b. repeat split; [by constructor|done].
Qed.

Lemma Decodes_join (s : string) (a b : list rune) :
  Decodes s (a ++ 64 :: b) →
  ∃ x y : string, s = x +:+ String "@" y ∧ Decodes x a ∧ Decodes y b.
Proof.
  revert s. induction a as [|r0 a IH]; intros s H; simpl in H.
  - inversion H as [|c t rs' Hc Ht Hs Hr|c blk rest r rs' Hc Hblk Hr]; subst.
    + assert (c = "@"%char) as -> by (by apply byte_inj).
      exists EmptyString, t. repeat split; [constructor|done].
    + lia.
  - inversion H as [|c t rs' Hc Ht|c blk rest r rs' Hc Hblk Hr Hrest]; subst.
    + destruct (IH t Ht) as (x & y & -> & Hx & Hy).
      exists (String c x), y. repeat split; [by constructor|done].
    + destruct (IH rest Hrest) as (x & y & -> & Hx & Hy).
      exists (String c (blk +:+ x)), y. rewrite append_cons, append_assoc.
      repeat split; [by constructor|done].
Qed.

End decoded.

(** ** Matching the email pattern *)

Section matching.
Import utf8 regexp.

Lemma in_one (ok : rune → bool) (p q : pos) :
  In q (one ok p) ↔ ∃ r : rune, snd p = r :: snd q ∧ ok r = true ∧ fst q = false.
Proof.
  unfold one. destruct p as [b [|r t]]; simpl.
  - split; [done|]. by intros (r & ? & _).
  - destruct (ok r) eqn:E; simpl.
    + split.
      * intros [<-|[]]. by exists r.
      * intros (r' & [= -> ->] & _ & Hq). left. destruct q; simpl in *.
        by subst.
    + split; [done|]. intros (r' & [= -> ->] & ? & _). congruence.
Qed.

(** Repeating a one-rune step reads a run of accepted runes. *)
Lemma in_loop_one (ok : rune → bool) (fuel : nat) (p q : pos) :
  (length (snd p) ≤ fuel)%nat →
  In q (loop (one ok) fuel p) ↔
  q = p ∨ ∃ a : list rune,
      a ≠ [] ∧ forallb ok a = true ∧ snd p = (a ++ snd q)%list ∧ fst q = false.
Proof.
  revert p. induction fuel as [|k IH]; intros p Hlen; simpl.
  - split.
    + intros [<-|[]]. by left.
    + intros [->|(a & Ha & _ & Hp & _)]; [by left|].
      destruct a; [done|]. rewrite Hp in Hlen. simpl in Hlen. lia.
  - rewrite in_flat_map. split.
    + intros [<-|(m & Hm & Hq)]; [by left|]. right.
      apply filter_In in Hm as [Hm _].
      apply in_one in Hm as (r & Hp & Hr & Hf).
      apply IH in Hq; [|rewrite Hp in Hlen; simpl in Hlen; lia].
      destruct Hq as [->|(a & Ha & Hok & Hm & Hfq)].
      * exists [r]. simpl. by rewrite Hr.
      * exists (r :: a). simpl. rewrite Hr, Hok, Hp, Hm. done.
    + intros [->|(a & Ha & Hok & Hp & Hfq)]; [by left|]. right.
      destruct a as [|r a]; [done|]. simpl in Hok, Hp.
      apply andb_true_iff in Hok as [Hr Hok].
      exists (false, (a ++ snd q)%list). split.
      * apply filter_In. split.
        -- apply in_one. exists r. by rewrite Hp.
        -- simpl. rewrite Hp. simpl. apply Nat.ltb_lt. lia.
      * apply IH; [rewrite Hp in Hlen; simpl in *; lia|].
        destruct a as [|r' a].
        -- left. destruct q; simpl in *. by subst.
        -- right. exists (r' :: a). by repeat split.
Qed.

Lemma in_plus_one (ok : rune → bool) (p q : pos) :
  In q (flat_map (λ m, loop (one ok) (length (snd m)) m) (one ok p)) ↔
  ∃ a : list rune,
    a ≠ [] ∧ forallb ok a = true ∧ snd p = (a ++ snd q)%list ∧ fst q = false.
Proof.
  rewrite in_flat_map. split.
  - intros (m & Hm & Hq). apply in_one in Hm as (r & Hp & Hr & Hf).
    apply in_loop_one in Hq; [|done].
    destruct Hq as [->|(a & Ha & Hok & Hm & Hfq)].
    + exists [r]. simpl. by rewrite Hr.
    + exists (r :: a). simpl. by rewrite Hr, Hok, Hp, Hm.
  - intros (a & Ha & Hok & Hp & Hfq). destruct a as [|r a]; [done|].
    simpl in Hok, Hp. apply andb_true_iff in Hok as [Hr Hok].
    exists (false, (a ++ snd q)%list). split.
    + apply in_one. exists r. by rewrite Hp.
    + apply in_loop_one; [done|]. destruct a as [|r' a].
      * left. destruct q; simpl in *. by subst.
      * right. exists (r' :: a). by repeat split.
Qed.

(** A match of the email pattern begins at the start of the text and
    covers all of it: a run of non-space runes, an ['@'], and another
    run. *)
Lemma step_EmailRx (p : pos) :
  (∃ q : pos, In q (step EmailRx p)) ↔
  fst p = true ∧
  ∃ a b : list rune,
    snd p = (a ++ 64 :: b)%list ∧ a ≠ [] ∧ b ≠ [] ∧
    forallb nonSpaceRune a = true ∧ forallb nonSpaceRune b = true.
Proof.
  unfold EmailRx, notSpace. split.
  - intros (q & Hq). simpl in Hq.
    destruct (fst p) eqn:Hfp; [|done]. simpl in Hq. rewrite app_nil_r in Hq.
    apply in_flat_map in Hq as (m1 & H1 & Hq).
    apply in_plus_one in H1 as (a & Ha & Hoka & Hp & _).
    apply in_flat_map in Hq as (m2 & H2 & Hq).
    apply in_one in H2 as (r & Hm1 & Hr%Z.eqb_eq & _). subst r.
    apply in_flat_map in Hq as (m3 & H3 & Hq).
    apply in_plus_one in H3 as (b & Hb & Hokb & Hm2 & _).
    destruct (snd m3) eqn:Hm3; [|done].
    split; [done|]. exists a, b. rewrite Hp, Hm1, Hm2, app_nil_r. done.
  - intros (Hfp & a & b & Hp & Ha & Hb & Hoka & Hokb).
    exists (false, []). simpl. rewrite Hfp. simpl. rewrite app_nil_r.
    apply in_flat_map. exists (false, 64 :: b). split.
    { apply in_plus_one. exists a. by repeat split. }
    apply in_flat_map. exists (false, b). split.
    { apply in_one. exists 64. by repeat split. }
    apply in_flat_map. exists (false, []). split.
    { apply in_plus_one. exists b. simpl. rewrite app_nil_r. by repeat split. }
    simpl. by left.
Qed.

Lemma starts_false (rs : list rune) (p : pos) :
  In p (starts false rs) → fst p = false.
Proof.
  induction rs as [|r rs IH]; simpl.
  - by intros [<-|[]].
  - intros [<-|Hp]; [done|]. by apply IH.
Qed.

Lemma starts_head (b : bool) (rs : list rune) : In (b, rs) (starts b rs).
Proof. destruct rs; simpl; by left. Qed.

Lemma starts_true (rs : list rune) (p : pos) :
  In p (starts true rs) → fst p = true → p = (true, rs).
Proof.
  destruct rs as [|r rs]; simpl.
  - by intros [<-|[]].
  - intros [<-|Hp%starts_false]; [done|]. congruence.
Qed.

Lemma matchRunes_EmailRx (rs : list rune) :
  matchRunes EmailRx rs = true ↔
  ∃ a b : list rune,
    rs = (a ++ 64 :: b)%list ∧ a ≠ [] ∧ b ≠ [] ∧
    forallb nonSpaceRune a = true ∧ forallb nonSpaceRune b = true.
Proof.
  unfold matchRunes. rewrite existsb_exists. split.
  - intros (p & Hp & Hstep).
    assert (∃ q : pos, In q (step EmailRx p)) as Hq.
    { destruct (step EmailRx p) as [|q l]; [done|]. exists q. by left. }
    apply step_EmailRx in Hq as (Hfp & a & b & Hrs & Hab).
    apply starts_true in Hp; [|done]. subst p. by exists a, b.
  - intros (a & b & Hrs & Hab). exists (true, rs). split; [apply starts_head|].
    assert (∃ q : pos, In q (step EmailRx (true, rs))) as [q Hq].
    { apply step_EmailRx. split; [done|]. by exists a, b. }
    by destruct (step EmailRx (true, rs)).
Qed.

(** The email pattern accepts exactly the strings of the email shape. *)
Lemma MatchString_EmailRx (v : string) :
  MatchString EmailRx v = true ↔ emailShape v.
Proof.
  unfold MatchString, emailShape. rewrite matchRunes_EmailRx.
  pose proof (runes_Decodes v) as Hdec.
  pose proof (Decodes_nonSpace v (runes v) Hdec) as Hsp. split.
  - intros (a & b & Hrs & Ha & Hb & Hoka & Hokb). rewrite Hrs in Hdec, Hsp.
    split.
    + rewrite forallb_app in Hsp. simpl in Hsp.
      rewrite Hoka, Hokb in Hsp. simpl in Hsp.
      by destruct (hasSpace v).
    + apply Decodes_join in Hdec as (x & y & -> & Hx & Hy).
      exists x, y. split; [done|]. split.
      * intros ->. apply Decodes_empty in Hx as [Hx _]. by apply Ha, Hx.
      * intros ->. apply Decodes_empty in Hy as [Hy _]. by apply Hb, Hy.
  - intros (Hns & x & y & Hv & Hx & Hy). rewrite Hns in Hsp. subst v.
    apply Decodes_split in Hdec as (a & b & Hrs & Hdx & Hdy).
    rewrite Hrs, forallb_app in Hsp. simpl in Hsp.
    apply andb_true_iff in Hsp as [Hoka Hokb].
    exists a, b. repeat split; try done.
    + intros ->. apply Decodes_empty in Hdx as [_ Hdx]. by apply Hx, Hdx.
    + intros ->. apply Decodes_empty in Hdy as [_ Hdy]. by apply Hy, Hdy.
Qed.

End matching.

(** ** The format loop runs to the end of the format *)

Section format_loop.
Import utf8 fmt.

Lemma skip_flags_length (s : string) :
  (String.length (skip_flags s) ≤ String.length s)%nat.
Proof.
  induction s as [|c s IH]; simpl; [done|]. destruct (is_flag c); simpl; lia.
Qed.

Lemma parsenum_go_length (num : Z) (isnum : bool) (s : string) :
  (String.length (snd (parsenum_go num isnum s)) ≤ String.length s)%nat.
Proof.
  revert num isnum. induction s as [|c s IH]; intros num isnum; simpl; [done|].
  destruct (is_digit c); simpl; [|done].
  destruct (tooLarge num); simpl; [lia|].
  specialize (IH (num * 10 + (byte c - 48)) true). lia.
Qed.

Lemma find_close_length (s inner after : string) :
  find_close s = Some (inner, after) →
  (String.length after < String.length s)%nat.
Proof.
  revert inner. induction s as [|c s IH]; intros inner; simpl; [done|].
  destruct (Ascii.eqb c "]").
  - intros [= <- <-]. lia.
  - destruct (find_close s) as [[i a]|]; [|done].
    intros [= <- <-]. specialize (IH i eq_refl). lia.
Qed.

Lemma parseArgNumber_length (s : string) :
  (String.length (snd (parseArgNumber s)) ≤ String.length s)%nat.
Proof.
  unfold parseArgNumber. destruct s as [|c t]; [done|].
  destruct (String.length (String c t) <? 3)%nat; [simpl; lia|].
  destruct (find_close t) as [[inner after]|] eqn:E; [|simpl; lia].
  apply find_close_length in E. destruct (parsenum inner). simpl. lia.
Qed.

Lemma argNumber_length (s : string) :
  (String.length (snd (fst (argNumber s))) ≤ String.length s)%nat.
Proof.
  unfold argNumber. destruct s as [|c t]; [done|].
  pose proof (parseArgNumber_length (String c t)) as H.
  destruct (parseArgNumber (String c t)) as [ok rest]. simpl in H.
  destruct c as [[] [] [] [] [] [] [] []]; simpl; lia.
Qed.

Lemma drop_decode_length (c : ascii) (t : string) :
  (String.length (drop (snd (DecodeRuneInString (String c t))) (String c t))
   ≤ String.length t)%nat.
Proof.
  destruct (DecodeRune_cases c t) as (r & blk & rest & -> & -> & _).
  simpl snd. rewrite drop_block, length_append. lia.
Qed.

Lemma parsenum_length (s : string) :
  (String.length (snd (parsenum s)) ≤ String.length s)%nat.
Proof. apply parsenum_go_length. Qed.

Lemma width_length (good afterIndex : bool) (s : string) :
  (String.length (snd (fst (width good afterIndex s))) ≤ String.length s)%nat.
Proof.
  unfold width. pose proof (parsenum_length s) as Hp.
  destruct (parsenum s) as [w t]. simpl in Hp.
  destruct s as [|c t1]; [done|].
  destruct c as [[] [] [] [] [] [] [] []]; simpl in *; lia.
Qed.

Lemma precision_length (good afterIndex : bool) (s : string) :
  (String.length (snd (fst (precision good afterIndex s)))
   ≤ String.length s)%nat.
Proof.
  unfold precision. destruct s as [|c t]; [done|].
  pose proof (argNumber_length t) as Ha.
  destruct (argNumber t) as [[g t1] a]. simpl in Ha.
  pose proof (parsenum_length t1) as Hp.
  destruct (parsenum t1) as [w t2]. simpl in Hp.
  assert (String.length
            (snd (fst (match t1 with
                       | String "*" t' =>
                         (badPrecString, good && negb afterIndex && g, t', false)
                       | _ => (EmptyString, good && negb afterIndex && g, t2, a)
                       end%char))) ≤ String.length t)%nat as Hin.
  { destruct t1 as [|c1 t1]; [simpl in *; lia|].
    destruct c1 as [[] [] [] [] [] [] [] []]; simpl in *; lia. }
  destruct c as [[] [] [] [] [] [] [] []]; simpl in *; lia.
Qed.

Lemma verb_length (good : bool) (s out s' : string) :
  verb good s = (out, Some s') → (String.length s' < String.length s)%nat.
Proof.
  unfold verb. destruct s as [|c t]; [done|].
  pose proof (drop_decode_length c t) as Hd.
  destruct (DecodeRuneInString (String c t)) as [r size]. simpl snd in Hd.
  intros [= _ <-]. simpl. lia.
Qed.

(** A directive that does not end the format leaves less of it. *)
Lemma directive_length (s out s' : string) :
  directive s = (out, Some s') → (String.length s' < String.length s)%nat.
Proof.
  unfold directive.
  pose proof (skip_flags_length s) as H0.
  pose proof (argNumber_length (skip_flags s)) as H1.
  destruct (argNumber (skip_flags s)) as [[g1 s1] a1]. simpl in H1.
  pose proof (width_length g1 a1 s1) as H2.
  destruct (width g1 a1 s1) as [[[ow g2] s2] a2]. simpl in H2.
  pose proof (precision_length g2 a2 s2) as H3.
  destruct (precision g2 a2 s2) as [[[op g3] s3] a3]. simpl in H3.
  pose proof (argNumber_length s3) as H4.
  destruct (argNumber s3) as [[g s4] a4]. simpl in H4.
  destruct a3.
  - destruct (verb g3 s3) as [o next] eqn:E. intros [= _ ->].
    apply verb_length in E. lia.
  - destruct (verb (g3 && g) s4) as [o next] eqn:E. intros [= _ ->].
    apply verb_length in E. lia.
Qed.

Lemma literal_length (s : string) :
  (String.length (snd (literal s)) ≤ String.length s)%nat.
Proof.
  induction s as [|c s IH]; simpl; [done|].
  destruct (Ascii.eqb c "%"); [simpl; lia|].
  destruct (literal s). simpl in *. lia.
Qed.

(** One round more than the format has bytes is enough for the loop: more
    rounds give the same text. *)
Lemma doPrintf_enough (n m : nat) (format : string) :
  (String.length format < n)%nat → (String.length format < m)%nat →
  doPrintf n format = doPrintf m format.
Proof.
  revert m format. induction n as [|n IH]; intros [|m] format Hn Hm;
    try lia. simpl.
  pose proof (literal_length format) as Hl.
  destruct (literal format) as [lit rest]. simpl in Hl.
  destruct rest as [|c s]; [done|]. simpl in Hl.
  destruct (directive s) as [out [s'|]] eqn:E; [|done].
  apply directive_length in E. do 2 f_equal. apply IH; lia.
Qed.

Lemma Errorf_enough (fuel : nat) (format : string) :
  (String.length format < fuel)%nat →
  Some (doPrintf fuel format) = Errorf format.
Proof.
  intros H. unfold Errorf. f_equal. apply doPrintf_enough; lia.
Qed.

End format_loop.

(** ** The repetition loop of the matcher *)

Section regexp_loop.
Import utf8 regexp.

Lemma flat_map_ext_In {A B : Type} (f g : A → list B) (l : list A) :
  (∀ a : A, In a l → f a = g a) → flat_map f l = flat_map g l.
Proof.
  induction l as [|a l IH]; simpl; [done|]. intros H.
  rewrite (H a) by (by left). f_equal. apply IH. intros b Hb. apply H.
  by right.
Qed.

(** Each round of a loop reads at least one rune, so as many rounds as
    there are runes left is enough: more rounds give the same positions. *)
Lemma loop_enough (f : pos → list pos) (n m : nat) (p : pos) :
  (length (snd p) ≤ n)%nat → (length (snd p) ≤ m)%nat →
  loop f n p = loop f m p.
Proof.
  revert m p. induction n as [|n IH]; intros [|m] p Hn Hm; simpl.
  - done.
  - assert (List.filter (λ q, (length (snd q) <? length (snd p))%nat) (f p)
            = []) as ->; [|done].
    induction (f p) as [|q l IHl]; simpl; [done|].
    destruct (Nat.ltb_spec (length (snd q)) (length (snd p))); [lia|done].
  - assert (List.filter (λ q, (length (snd q) <? length (snd p))%nat) (f p)
            = []) as ->; [|done].
    induction (f p) as [|q l IHl]; simpl; [done|].
    destruct (Nat.ltb_spec (length (snd q)) (length (snd p))); [lia|done].
  - f_equal. apply flat_map_ext_In. intros q [_ Hq%Nat.ltb_lt]%filter_In.
    apply IH; lia.
Qed.

End regexp_loop.

(** ** The two families *)

Section families.
Implicit Types (field : string) (errors : Errors) (c : Check).

(** Every [Is*] check either reports one message through [AddError] or
    returns the accumulator it was given, and which of the two is decided
    by the violation condition. *)
Lemma run_Direct_cases c field errors :
  ∃ msg : string,
    run Direct c field errors
    = if violated c then forms.AddError field errors msg else errors.
Proof.
  destruct c; simpl;
    unfold forms.IsStringLength, forms.IsNumberBetween, forms.IsSize,
           forms.IsMinSize, forms.IsEmail, forms.IsRegex;
    rewrite ?Z.gtb_ltb; eexists; reflexivity.
Qed.

(** The wrapped checks agree with the [Is*] checks whenever the message
    carries no formatting directive: [fmt.Errorf] then returns its format
    unchanged. *)
Lemma families_agree c field errors :
  percentFree c = true →
  run Wrapped c field errors = run Direct c field errors.
Proof.
  intros Hc. destruct c; simpl in *;
    unfold validate.StringLength, validate.NumberBetween, validate.Size,
           validate.MinSize, validate.Regex, validate.Email,
           forms.IsStringLength, forms.IsNumberBetween, forms.IsSize,
           forms.IsMinSize, forms.IsEmail, forms.IsRegex;
    repeat match goal with
           | |- context [if ?b then _ else _] => destruct b
           end;
    rewrite ?Validate_nil; try reflexivity;
    (rewrite Errorf_noPercent by (assumption || no_percent));
    apply Validate_error.
Qed.

Lemma run_Wrapped_cases c field errors :
  ∃ msg : string,
    run Wrapped c field errors
    = if violated c then forms.AddError field errors msg else errors.
Proof.
  destruct c; simpl;
    unfold validate.StringLength, validate.NumberBetween, validate.Size,
           validate.MinSize, validate.Regex, validate.Email, fmt.Errorf;
    rewrite ?Z.gtb_ltb; eexists;
    match goal with
    | |- _ = if ?b then _ else _ => destruct b
    end; reflexivity.
Qed.

Lemma run_cases (fam : Family) c field errors :
  ∃ msg : string,
    run fam c field errors
    = if violated c then forms.AddError field errors msg else errors.
Proof.
  destruct fam; [apply run_Direct_cases | apply run_Wrapped_cases].
Qed.

End families.

(** ** The common contract of the checks *)

Section contract.
Implicit Types (field : string) (errors : Errors) (c : Check).

Lemma run_to_Direct (fam : Family) c field errors :
  percentFree c = true →
  run fam c field errors = run Direct c field errors.
Proof. destruct fam; [done | apply families_agree]. Qed.

Lemma run_passing (fam : Family) c field errors :
  violated c = false → run fam c field errors = errors.
Proof.
  intros Hv. destruct (run_cases fam c field errors) as [msg ->].
  by rewrite Hv.
Qed.

Lemma run_failing (fam : Family) c field errors :
  violated c = true →
  ∃ msg : string, run fam c field errors = forms.AddError field errors msg.
Proof.
  intros Hv. destruct (run_cases fam c field errors) as [msg ->].
  rewrite Hv. by exists msg.
Qed.

Lemma appended_iff_violated (fam : Family) c field errors :
  appended field errors (run fam c field errors) ↔ violated c = true.
Proof.
  split.
  - intros [msg Hm]. destruct (violated c) eqn:Hv; [done|].
    rewrite (run_passing fam c field errors Hv) in Hm.
    by apply appends_changes in Hm.
  - intros Hv. destruct (run_failing fam c field errors Hv) as [msg ->].
    exists msg. apply appends_AddError.
Qed.

End contract.

(** C1.  Every check of either family, on every field, accumulator and
    input: when the constraint holds the accumulator is returned unchanged;
    when it is violated exactly one message is added at the end of the
    sequence under the field's key, and no other key changes. *)
Theorem check_contract (fam : Family) (c : Check) (field : string)
        (errors : Errors) :
  (violated c = false → run fam c field errors = errors) ∧
  (violated c = true →
   ∃ msg : string, appends field msg errors (run fam c field errors)).
Proof.
  split.
  - apply run_passing.
  - intros Hv. destruct (run_failing fam c field errors Hv) as [msg ->].
    exists msg. apply appends_AddError.
Qed.

Lemma check_contract_witness :
  violated (CStringLength "abc" 5 5) = true ∧
  ∃ msg : string,
    appends "name" msg ∅ (run Wrapped (CStringLength "abc" 5 5) "name" ∅).
Proof.
  split; [reflexivity|].
  apply (proj2 (check_contract Wrapped (CStringLength "abc" 5 5) "name" ∅)).
  reflexivity.
Defined.

(** C9.  A check called for field [f] leaves the entry of every other field
    [g], present or absent, as it was. *)
Theorem other_fields_untouched (fam : Family) (c : Check) (f g : string)
        (errors : Errors) :
  g ≠ f → run fam c f errors !! g = errors !! g.
Proof.
  intros Hne. destruct (run_cases fam c f errors) as [msg ->].
  destruct (violated c); [by apply AddError_lookup_ne | done].
Qed.

Lemma other_fields_untouched_witness :
  "age" ≠ "name" ∧
  run Direct (CEmail "noatsign") "name" {["age" := ["Must be exactly 3, but was 7"]]}
      !! "age"
  = ({["age" := ["Must be exactly 3, but was 7"]]} : Errors) !! "age".
Proof.
  split; [discriminate|].
  apply (other_fields_untouched Direct (CEmail "noatsign") "name" "age").
  discriminate.
Defined.

(** C2.  The three range checks, in either family: a message is appended
    under the field if and only if the measured quantity (the byte length of
    the string, the number itself for every integer type, the number of
    entries of the slice or map) is below [m] or above [n]; within the
    bounds the accumulator is returned as it was. *)
Theorem range_check_violation_iff (fam : Family) (field : string)
        (errors : Errors) :
  (∀ (v : string) (m n : Z),
      (appended field errors (run fam (CStringLength v m n) field errors)
       ↔ lenString v < m ∨ lenString v > n) ∧
      (m ≤ lenString v ≤ n →
       run fam (CStringLength v m n) field errors = errors)) ∧
  (∀ (T : NumericComparable) (v m n : num T),
      (appended field errors (run fam (CNumberBetween T v m n) field errors)
       ↔ val v < val m ∨ val v > val n) ∧
      (val m ≤ val v ≤ val n →
       run fam (CNumberBetween T v m n) field errors = errors)) ∧
  (∀ (Q U : Type) `{Countable U} (v : Lengthable Q U) (m n : Z),
      (appended field errors (run fam (CSize Q U v m n) field errors)
       ↔ len v < m ∨ len v > n) ∧
      (m ≤ len v ≤ n → run fam (CSize Q U v m n) field errors = errors)).
Proof.
  repeat split; intros;
    try (apply appended_iff_violated; simpl;
         apply orb_true_iff; rewrite !Z.ltb_lt; lia);
    try (match goal with
         | H : appended _ _ _ |- _ =>
           apply appended_iff_violated in H; simpl in H;
           apply orb_true_iff in H; rewrite !Z.ltb_lt in H; lia
         end);
    apply run_passing; simpl; apply orb_false_iff; rewrite !Z.ltb_ge; lia.
Qed.

Lemma range_check_violation_iff_witness :
  (2 ≤ lenString "abc" ≤ 5 ∧
   run Direct (CStringLength "abc" 2 5) "name" ∅ = ∅) ∧
  (val int8_min ≤ val int8_min ≤ val int8_max ∧
   run Wrapped (CNumberBetween Int8 int8_min int8_min int8_max) "age" ∅ = ∅) ∧
  (val uint64_zero ≤ val uint64_max ≤ val uint64_max ∧
   run Direct (CNumberBetween Uint64 uint64_max uint64_zero uint64_max)
       "count" ∅ = ∅).
Proof.
  split; [|split].
  - split; [by vm_compute|].
    apply (proj2 (proj1 (range_check_violation_iff Direct "name" ∅)
                        "abc" 2 5)).
    by vm_compute.
  - split; [by vm_compute|].
    apply (proj2 (proj1 (proj2 (range_check_violation_iff Wrapped "age" ∅))
                        Int8 int8_min int8_min int8_max)).
    by vm_compute.
  - split; [by vm_compute|].
    apply (proj2 (proj1 (proj2 (range_check_violation_iff Direct "count" ∅))
                        Uint64 uint64_max uint64_zero uint64_max)).
    by vm_compute.
Defined.

(** ** Messages of the range and size checks *)

(** Decide the comparisons of a check and discard the impossible cases. *)
Ltac settle_bounds :=
  rewrite ?Z.gtb_ltb;
  repeat match goal with
         | |- context [Z.eqb ?a ?b] => destruct (Z.eqb_spec a b)
         | |- context [Z.ltb ?a ?b] => destruct (Z.ltb_spec a b)
         end;
  simpl; try lia; try reflexivity.

Ltac open_check :=
  rewrite run_to_Direct by reflexivity; simpl;
  unfold forms.IsStringLength, forms.IsNumberBetween, forms.IsSize,
         forms.IsMinSize.

(** C8.  A failing length, numeric-range or size check, in either family,
    appends the "exactly" message when [m = n] and the "between" message,
    which names both bounds, when [m < n]. *)
Theorem exactly_or_between_message (fam : Family) (field : string)
        (errors : Errors) :
  (∀ (v : string) (m n : Z),
      lenString v < m ∨ lenString v > n →
      (m = n →
       run fam (CStringLength v m n) field errors
       = forms.AddError field errors
           ("Must be exactly " +:+ fmt.formatInt m +:+ " characters long")) ∧
      (m < n →
       run fam (CStringLength v m n) field errors
       = forms.AddError field errors
           ("Must be between " +:+ fmt.formatInt m +:+ " and "
            +:+ fmt.formatInt n +:+ " characters long"))) ∧
  (∀ (T : NumericComparable) (v m n : num T),
      val v < val m ∨ val v > val n →
      (val m = val n →
       run fam (CNumberBetween T v m n) field errors
       = forms.AddError field errors
           ("Must be exactly " +:+ fmt.formatInt (val m) +:+ ", but was "
            +:+ fmt.formatInt (val v))) ∧
      (val m < val n →
       run fam (CNumberBetween T v m n) field errors
       = forms.AddError field errors
           ("Must be between " +:+ fmt.formatInt (val m) +:+ " and "
            +:+ fmt.formatInt (val n) +:+ ", but was "
            +:+ fmt.formatInt (val v)))) ∧
  (∀ (Q U : Type) `{Countable U} (v : Lengthable Q U) (m n : Z),
      len v < m ∨ len v > n →
      (m = n →
       run fam (CSize Q U v m n) field errors
       = forms.AddError field errors
           ("Must have exactly " +:+ fmt.formatInt m +:+ " entries, but had "
            +:+ fmt.formatInt (len v))) ∧
      (m < n →
       run fam (CSize Q U v m n) field errors
       = forms.AddError field errors
           ("Must have between " +:+ fmt.formatInt m +:+ " and "
            +:+ fmt.formatInt n +:+ " entries, but had "
            +:+ fmt.formatInt (len v)))).
Proof.
  repeat split; intros; open_check; settle_bounds.
Qed.

Lemma exactly_or_between_message_witness :
  (lenString "abc" < 5 ∨ lenString "abc" > 5) ∧
  run Wrapped (CStringLength "abc" 5 5) "name" ∅
  = forms.AddError "name" ∅
      ("Must be exactly " +:+ fmt.formatInt 5 +:+ " characters long").
Proof.
  split; [left; by vm_compute|].
  refine (proj1 (proj1 (exactly_or_between_message Wrapped "name" ∅)
                       "abc" 5 5 _) _).
  - left. by vm_compute.
  - reflexivity.
Defined.

(** C10.  With inverted bounds [m > n] the string-length, numeric-range and
    size-range checks, in either family, report a violation whatever the
    value is, and the message is the "between" one with the bounds as they
    were given. *)
Theorem inverted_bounds_always_fail (fam : Family) (field : string)
        (errors : Errors) :
  (∀ (v : string) (m n : Z),
      m > n →
      run fam (CStringLength v m n) field errors
      = forms.AddError field errors
          ("Must be between " +:+ fmt.formatInt m +:+ " and "
           +:+ fmt.formatInt n +:+ " characters long")) ∧
  (∀ (T : NumericComparable) (v m n : num T),
      val m > val n →
      run fam (CNumberBetween T v m n) field errors
      = forms.AddError field errors
          ("Must be between " +:+ fmt.formatInt (val m) +:+ " and "
           +:+ fmt.formatInt (val n) +:+ ", but was "
           +:+ fmt.formatInt (val v))) ∧
  (∀ (Q U : Type) `{Countable U} (v : Lengthable Q U) (m n : Z),
      m > n →
      run fam (CSize Q U v m n) field errors
      = forms.AddError field errors
          ("Must have between " +:+ fmt.formatInt m +:+ " and "
           +:+ fmt.formatInt n +:+ " entries, but had "
           +:+ fmt.formatInt (len v))).
Proof.
  repeat split; intros; open_check; settle_bounds.
Qed.

Lemma inverted_bounds_always_fail_witness :
  5 > 2 ∧
  run Direct (CStringLength "abc" 5 2) "name" ∅
  = forms.AddError "name" ∅
      ("Must be between " +:+ fmt.formatInt 5 +:+ " and "
       +:+ fmt.formatInt 2 +:+ " characters long").
Proof.
  split; [reflexivity|].
  apply (proj1 (inverted_bounds_always_fail Direct "name" ∅) "abc" 5 2).
  reflexivity.
Defined.

(** C7.  A failing minimum-size check, in either family, appends
    "Must have a minimum of n entry, but had size" when [n ≤ 1] and
    "Must have a minimum of n entries, but had size" when [n > 1]. *)
Theorem min_size_message (fam : Family) (field : string) (errors : Errors)
        (Q U : Type) `{Countable U} (v : Lengthable Q U) (n : Z) :
  len v < n →
  (n ≤ 1 →
   run fam (CMinSize Q U v n) field errors
   = forms.AddError field errors
       ("Must have a minimum of " +:+ fmt.formatInt n +:+ " entry, but had "
        +:+ fmt.formatInt (len v))) ∧
  (n > 1 →
   run fam (CMinSize Q U v n) field errors
   = forms.AddError field errors
       ("Must have a minimum of " +:+ fmt.formatInt n +:+ " entries, but had "
        +:+ fmt.formatInt (len v))).
Proof.
  intros Hv. split; intros Hn; open_check; settle_bounds.
Qed.

Lemma min_size_message_witness :
  len (Map (∅ : gmap string nat)) < 1 ∧
  run Wrapped (CMinSize nat string (Map ∅) 1) "tags" ∅
  = forms.AddError "tags" ∅
      ("Must have a minimum of " +:+ fmt.formatInt 1 +:+ " entry, but had "
       +:+ fmt.formatInt (len (Map (∅ : gmap string nat)))).
Proof.
  split; [by vm_compute|].
  refine (proj1 (min_size_message Wrapped "tags" ∅ nat string (Map ∅) 1 _) _).
  - by vm_compute.
  - by vm_compute.
Defined.

(** C4, as stated, fails: a size-range check on an empty slice with bounds
    1 and 1 appends "Must have exactly 1 entries, but had 0", which is
    neither the quoted "Must have exactly 1 entries" nor the length message
    with "entries" for "characters". *)
Lemma entries_phrasing_counterexample :
  violated (CSize nat nat (Slice []) 1 1) = true ∧
  forms.IsSize "tags" ∅ (Slice (U := nat) ([] : list nat)) 1 1
  = {["tags" := ["Must have exactly 1 entries, but had 0"]]} ∧
  validate.Size "tags" ∅ (Slice (U := nat) ([] : list nat)) 1 1
  = {["tags" := ["Must have exactly 1 entries, but had 0"]]} ∧
  claimedSizeMessage 1 1 = "Must have exactly 1 entries" ∧
  lengthPhrasing "entries" 1 1 = "Must be exactly 1 entries long" ∧
  ¬ appends "tags" (claimedSizeMessage 1 1) ∅
      (forms.IsSize "tags" ∅ (Slice (U := nat) ([] : list nat)) 1 1) ∧
  ¬ appends "tags" (lengthPhrasing "entries" 1 1) ∅
      (forms.IsSize "tags" ∅ (Slice (U := nat) ([] : list nat)) 1 1).
Proof.
  repeat split; try reflexivity; intros [Hf _]; vm_compute in Hf;
    discriminate.
Qed.

(** C4, amended.  A failing size-range check, in either family, appends
    "Must have exactly m entries, but had size" when [m = n] and
    "Must have between m and n entries, but had size" otherwise: next to the
    word "entries" the phrasing has "have" for "be", no "long", and ends by
    reporting the size found. *)
Theorem size_range_message (fam : Family) (field : string) (errors : Errors)
        (Q U : Type) `{Countable U} (v : Lengthable Q U) (m n : Z) :
  len v < m ∨ len v > n →
  run fam (CSize Q U v m n) field errors
  = forms.AddError field errors
      (if m =? n
       then "Must have exactly " +:+ fmt.formatInt m +:+ " entries, but had "
            +:+ fmt.formatInt (len v)
       else "Must have between " +:+ fmt.formatInt m +:+ " and "
            +:+ fmt.formatInt n +:+ " entries, but had "
            +:+ fmt.formatInt (len v)).
Proof.
  intros Hv. open_check.
  destruct ((len v <? m) || (len v >? n)) eqn:E; [reflexivity|].
  apply orb_false_iff in E as [E1 E2]. rewrite Z.gtb_ltb in E2.
  apply Z.ltb_ge in E1, E2. lia.
Qed.

Lemma size_range_message_witness :
  (len (Slice (U := nat) [1%nat; 2%nat; 3%nat]) < 1 ∨
   len (Slice (U := nat) [1%nat; 2%nat; 3%nat]) > 2) ∧
  run Direct (CSize nat nat (Slice [1%nat; 2%nat; 3%nat]) 1 2) "tags" ∅
  = forms.AddError "tags" ∅ "Must have between 1 and 2 entries, but had 3".
Proof.
  split; [right; by vm_compute|].
  apply (size_range_message Direct "tags" ∅ nat nat (Slice [1%nat; 2%nat; 3%nat]) 1 2).
  right. by vm_compute.
Defined.

(** ** The email check *)

(** C6, as stated, fails: "a@b@c" has no whitespace and two [@], so it is
    not of the shape "exactly one [@] between two non-empty runs", yet the
    email check of either family adds no message for it. *)
Lemma email_accepts_two_at_signs :
  hasSpace "a@b@c" = false ∧ countAt "a@b@c" = 2%nat ∧
  oneAtShape "a@b@c" = false ∧
  forms.IsEmail "email" ∅ "a@b@c" = ∅ ∧
  validate.Email "email" ∅ "a@b@c" = ∅ ∧
  ¬ (appended "email" ∅ (forms.IsEmail "email" ∅ "a@b@c")
     ↔ oneAtShape "a@b@c" = false).
Proof.
  repeat split; try reflexivity.
  intros [_ H]. destruct (H eq_refl) as [msg Hm].
  by apply appends_changes in Hm.
Qed.

Lemma run_CEmail (fam : Family) (field : string) (errors : Errors)
      (v : string) :
  run fam (CEmail v) field errors
  = if regexp.MatchString EmailRx v then errors
    else forms.AddError field errors "Email address is invalid".
Proof.
  rewrite run_to_Direct by reflexivity. simpl.
  unfold forms.IsEmail, forms.IsRegex.
  by destruct (regexp.MatchString EmailRx v).
Qed.

(** C6, amended.  The email check, in either family, adds no message
    exactly when the value has no whitespace and has some [@] with at least
    one byte before it and after it (further [@] may occur on either side);
    otherwise it appends "Email address is invalid".  So "a@b" passes, and
    "a b@c" and "noatsign" fail. *)
Theorem email_check (fam : Family) (field : string) (errors : Errors)
        (v : string) :
  (emailShape v ↔ run fam (CEmail v) field errors = errors) ∧
  (¬ emailShape v ↔
   run fam (CEmail v) field errors
   = forms.AddError field errors "Email address is invalid") ∧
  run fam (CEmail "a@b") field errors = errors ∧
  run fam (CEmail "a b@c") field errors
  = forms.AddError field errors "Email address is invalid" ∧
  run fam (CEmail "noatsign") field errors
  = forms.AddError field errors "Email address is invalid".
Proof.
  rewrite !run_CEmail.
  split; [|split; [|repeat split; reflexivity]].
  - rewrite <- MatchString_EmailRx.
    destruct (regexp.MatchString EmailRx v); split; try done.
    intros H. exfalso. revert H.
    apply (appends_changes field "Email address is invalid").
    apply appends_AddError.
  - rewrite <- MatchString_EmailRx.
    destruct (regexp.MatchString EmailRx v); split; try done.
    intros H. exfalso. symmetry in H. revert H.
    apply (appends_changes field "Email address is invalid").
    apply appends_AddError.
Qed.

(** ** The pattern check *)

(** The [Is*] pattern check reports the caller's message as it is. *)
Lemma IsRegex_verbatim (field : string) (errors : Errors) (v : string)
      (rx : regexp.Regexp) (message : string) :
  forms.IsRegex field errors v rx message
  = if regexp.MatchString rx v then errors
    else forms.AddError field errors message.
Proof. unfold forms.IsRegex. by destruct (regexp.MatchString rx v). Qed.

(** The specification's two examples of the pattern check. *)
Lemma IsRegex_examples :
  forms.IsRegex "f" ∅ "abc" axcRx "bad" !! "f" = None ∧
  forms.IsRegex "f" ∅ "xyz" axcRx "bad" !! "f" = Some ["bad"].
Proof. split; reflexivity. Qed.

(** The wrapped pattern check does the same as long as the message has no
    ['%']. *)
Lemma Regex_verbatim (field : string) (errors : Errors) (v : string)
      (rx : regexp.Regexp) (message : string) :
  noPercent message = true →
  validate.Regex field errors v rx message
  = if regexp.MatchString rx v then errors
    else forms.AddError field errors message.
Proof.
  intros Hm. rewrite <- IsRegex_verbatim.
  by apply (families_agree (CRegex v rx message)).
Qed.

(** C5.  The wrapped pattern check passes the caller's message to
    [fmt.Errorf] as a format: on the failing value "xyz" the message "100%"
    is recorded as "100%!(NOVERB)", not character for character, while the
    [Is*] check records "100%". *)
Theorem Regex_formats_the_message :
  regexp.MatchString axcRx "xyz" = false ∧
  validate.Regex "f" ∅ "xyz" axcRx "100%" !! "f" = Some ["100%!(NOVERB)"] ∧
  forms.IsRegex "f" ∅ "xyz" axcRx "100%" !! "f" = Some ["100%"].
Proof. repeat split; reflexivity. Qed.

(** C3.  The two families part on a pattern check whose message has a
    ['%']: from the same empty accumulator the [Is*] check records
    "Must be 100% numeric" and the wrapped check
    "Must be 100%!n(MISSING)umeric". *)
Theorem families_differ_on_formatted_message :
  forms.IsRegex "f" ∅ "xyz" axcRx "Must be 100% numeric"
  = {["f" := ["Must be 100% numeric"]]} ∧
  validate.Regex "f" ∅ "xyz" axcRx "Must be 100% numeric"
  = {["f" := ["Must be 100%!n(MISSING)umeric"]]} ∧
  run Wrapped (CRegex "xyz" axcRx "Must be 100% numeric") "f" ∅
  ≠ run Direct (CRegex "xyz" axcRx "Must be 100% numeric") "f" ∅.
Proof.
  repeat split; try reflexivity.
  intros H. apply (f_equal (lookup "f")) in H. vm_compute in H. discriminate.
Qed.

(** * Further properties of the checks *)

(** ** Calls in sequence *)

Section passes.
Implicit Types (field : string) (errors : Errors) (c : Check) (fam : Family).

(** The message of a failing check depends on the check alone, not on the
    field or on the accumulator. *)
Lemma run_uniform fam c :
  ∃ msg : string, ∀ field errors,
    run fam c field errors
    = if violated c then forms.AddError field errors msg else errors.
Proof.
  destruct fam, c; simpl; eexists; intros field errors;
    unfold forms.IsStringLength, forms.IsNumberBetween, forms.IsSize,
           forms.IsMinSize, forms.IsEmail, forms.IsRegex,
           validate.StringLength, validate.NumberBetween, validate.Size,
           validate.MinSize, validate.Regex, validate.Email, fmt.Errorf;
    rewrite ?Z.gtb_ltb;
    match goal with
    | |- _ = if ?b then _ else _ => destruct b
    end; reflexivity.
Qed.

Lemma report_violated fam c (msg : string) :
  (∀ field errors,
      run fam c field errors
      = if violated c then forms.AddError field errors msg else errors) →
  report fam c = if violated c then [msg] else [].
Proof.
  intros H. unfold report. rewrite H. destruct (violated c).
  - by rewrite AddError_lookup, lookup_empty.
  - by rewrite lookup_empty.
Qed.

Lemma run_lookup fam c (g f : string) errors :
  default [] (run fam c g errors !! f)
  = (default [] (errors !! f)
     ++ if decide (g = f) then report fam c else [])%list.
Proof.
  destruct (run_uniform fam c) as [msg H].
  rewrite (report_violated fam c msg H), H.
  destruct (violated c); case_decide; subst;
    rewrite ?AddError_lookup, ?AddError_lookup_ne, ?app_nil_r by done; done.
Qed.

End passes.

Lemma pass_lookup (calls : list call) (errors : Errors) (field : string) :
  default [] (pass calls errors !! field)
  = (default [] (errors !! field) ++ reports field calls)%list.
Proof.
  unfold pass, reports. revert errors.
  induction calls as [|[[fam c] g] calls IH]; intros errors; simpl.
  - by rewrite app_nil_r.
  - rewrite IH, run_lookup, app_assoc. done.
Qed.

(** X1.  After any sequence of calls, of either family and on any fields,
    the messages under a field are the messages that were there before,
    followed by what each call made for that field reports on its own, in
    the order of the calls. *)
Theorem pass_accumulates (calls : list call) (errors : Errors)
        (field : string) :
  default [] (pass calls errors !! field)
  = (default [] (errors !! field) ++ reports field calls)%list.
Proof.
  rewrite pass_lookup. reflexivity.
Qed.

Lemma report_nil (fam : Family) (c : Check) :
  report fam c = [] ↔ violated c = false.
Proof.
  destruct (run_uniform fam c) as [msg H].
  rewrite (report_violated fam c msg H). by destruct (violated c).
Qed.

(** X2.  A pass that starts from the empty accumulator ends with the empty
    accumulator exactly when every one of its checks passes. *)
Theorem pass_clean_iff_all_pass (calls : list call) :
  pass calls ∅ = ∅ ↔ Forall (λ '(fam, c, _), violated c = false) calls.
Proof.
  split.
  - intros Hp. apply Forall_forall. intros [[fam c] g] Hin.
    pose proof (pass_lookup calls ∅ g) as Hg.
    rewrite Hp, lookup_empty in Hg. simpl in Hg. symmetry in Hg.
    apply (report_nil fam c). unfold reports in Hg. clear Hp.
    induction calls as [|[[fam' c'] g'] calls IH]; [by apply elem_of_nil in Hin|].
    simpl in Hg. apply app_eq_nil in Hg as [Hhd Htl].
    apply elem_of_cons in Hin as [[= <- <- <-]|Hin].
    + by rewrite decide_True in Hhd.
    + by apply IH.
  - unfold pass. generalize (∅ : Errors).
    induction calls as [|[[fam c] g] calls IH]; intros errors Hall; [done|].
    apply Forall_cons in Hall as [Hc Hall]. simpl.
    rewrite run_passing by done. by apply IH.
Qed.

(** X3.  Two checks made for different fields can be made in either order:
    the accumulator ends up the same. *)
Theorem checks_on_different_fields_commute (fam1 fam2 : Family)
        (c1 c2 : Check) (f g : string) (errors : Errors) :
  f ≠ g →
  run fam1 c1 f (run fam2 c2 g errors) = run fam2 c2 g (run fam1 c1 f errors).
Proof.
  intros Hne.
  destruct (run_uniform fam1 c1) as [msg1 H1].
  destruct (run_uniform fam2 c2) as [msg2 H2].
  rewrite !H1, !H2. destruct (violated c1), (violated c2); try done.
  unfold forms.AddError. rewrite !lookup_insert_ne by done.
  by apply insert_insert_ne.
Qed.

Lemma checks_on_different_fields_commute_witness :
  "name" ≠ "tags" ∧
  run Direct (CStringLength "abc" 5 5) "name"
      (run Wrapped (CMinSize nat nat (Slice []) 1) "tags" ∅)
  = run Wrapped (CMinSize nat nat (Slice []) 1) "tags"
        (run Direct (CStringLength "abc" 5 5) "name" ∅).
Proof.
  split; [discriminate|].
  apply (checks_on_different_fields_commute Direct Wrapped
           (CStringLength "abc" 5 5) (CMinSize nat nat (Slice []) 1)
           "name" "tags" ∅).
  discriminate.
Defined.

(** ** What a call keeps *)

(** X4.  A check never removes or reorders what is already recorded: the
    sequence under any key is kept as a prefix of the sequence after the
    call. *)
Theorem earlier_messages_are_kept (fam : Family) (c : Check)
        (f g : string) (errors : Errors) (l : list string) :
  errors !! g = Some l →
  ∃ l' : list string, run fam c f errors !! g = Some (l ++ l')%list.
Proof.
  intros Hg. destruct (run_cases fam c f errors) as [msg ->].
  destruct (violated c).
  - destruct (decide (g = f)) as [->|Hne].
    + exists [msg]. by rewrite AddError_lookup, Hg.
    + exists []. by rewrite AddError_lookup_ne, app_nil_r.
  - exists []. by rewrite app_nil_r.
Qed.

Lemma earlier_messages_are_kept_witness :
  ({["name" := ["first"]]} : Errors) !! "name" = Some ["first"] ∧
  ∃ l' : list string,
    run Direct (CStringLength "abc" 5 5) "name" {["name" := ["first"]]}
        !! "name" = Some (["first"] ++ l')%list.
Proof.
  split; [reflexivity|].
  apply (earlier_messages_are_kept Direct (CStringLength "abc" 5 5)
           "name" "name" {["name" := ["first"]]} ["first"]).
  reflexivity.
Defined.

(** X5.  The keys after a call are the keys before it, with the field of
    the call added when the check fails; a passing check adds no key. *)
Theorem keys_after_a_check (fam : Family) (c : Check) (field : string)
        (errors : Errors) :
  dom (run fam c field errors)
  = dom errors ∪ (if violated c then {[field]} else ∅).
Proof.
  destruct (run_cases fam c field errors) as [msg ->].
  destruct (violated c).
  - unfold forms.AddError. rewrite dom_insert_L. apply union_comm_L.
  - by rewrite union_empty_r_L.
Qed.

(** X6.  If no key of the accumulator holds an empty sequence before a
    call, none does after it: a key is only ever stored with a message. *)
Theorem no_empty_sequence_is_stored (fam : Family) (c : Check)
        (field : string) (errors : Errors) :
  (∀ (g : string) (l : list string), errors !! g = Some l → l ≠ []) →
  ∀ (g : string) (l : list string),
    run fam c field errors !! g = Some l → l ≠ [].
Proof.
  intros Hinv g l. destruct (run_cases fam c field errors) as [msg ->].
  destruct (violated c); [|apply Hinv].
  destruct (decide (g = field)) as [->|Hne].
  - rewrite AddError_lookup. intros [= <-]. by destruct (default [] _).
  - rewrite AddError_lookup_ne by done. apply Hinv.
Qed.

Lemma no_empty_sequence_is_stored_witness :
  (∀ (g : string) (l : list string),
      (∅ : Errors) !! g = Some l → l ≠ []) ∧
  ∀ (g : string) (l : list string),
    run Wrapped (CEmail "noatsign") "email" ∅ !! g = Some l → l ≠ [].
Proof.
  assert (∀ (g : string) (l : list string),
             (∅ : Errors) !! g = Some l → l ≠ []) as H.
  { intros g l. rewrite lookup_empty. discriminate. }
  split; [exact H|].
  exact (no_empty_sequence_is_stored Wrapped (CEmail "noatsign") "email" ∅ H).
Defined.

(** X7.  After a call the field has no entry exactly when it had none
    before and the check passed. *)
Theorem field_absent_iff_passed (fam : Family) (c : Check) (field : string)
        (errors : Errors) :
  run fam c field errors !! field = None
  ↔ errors !! field = None ∧ violated c = false.
Proof.
  destruct (run_cases fam c field errors) as [msg ->].
  destruct (violated c).
  - rewrite AddError_lookup. split; [discriminate|]. by intros [_ ?].
  - split; [done|]. by intros [? _].
Qed.

(** ** Containers *)

(** X8.  The size checks depend on a container through its number of
    entries only: a slice and a map, of any element and key types, with the
    same count get the same outcome and the same message. *)
Theorem size_checks_see_only_the_count (fam : Family) (field : string)
        (errors : Errors) (Q U Q' U' : Type) `{Countable U} `{Countable U'}
        (v : Lengthable Q U) (w : Lengthable Q' U') (m n : Z) :
  len v = len w →
  run fam (CSize Q U v m n) field errors
  = run fam (CSize Q' U' w m n) field errors ∧
  run fam (CMinSize Q U v n) field errors
  = run fam (CMinSize Q' U' w n) field errors.
Proof.
  intros Hlen. destruct fam; simpl;
    unfold forms.IsSize, forms.IsMinSize, validate.Size, validate.MinSize;
    rewrite Hlen; done.
Qed.

Lemma size_checks_see_only_the_count_witness :
  len (Slice (U := nat) ["a"; "b"]) = len (Map ({[1%nat := 10; 2%nat := 20]} : gmap nat Z)) ∧
  run Direct (CSize string nat (Slice ["a"; "b"]) 3 4) "tags" ∅
  = run Direct (CSize Z nat (Map {[1%nat := 10; 2%nat := 20]}) 3 4) "tags" ∅ ∧
  run Direct (CMinSize string nat (Slice ["a"; "b"]) 4) "tags" ∅
  = run Direct (CMinSize Z nat (Map {[1%nat := 10; 2%nat := 20]}) 4) "tags" ∅.
Proof.
  split; [by vm_compute|].
  apply (size_checks_see_only_the_count Direct "tags" ∅ string nat Z nat
           (Slice ["a"; "b"]) (Map {[1%nat := 10; 2%nat := 20]}) 3 4).
  by vm_compute.
Defined.

(** X9.  A minimum size of zero or less is met by every container: the
    check never reports. *)
Theorem min_size_below_one_never_fails (fam : Family) (field : string)
        (errors : Errors) (Q U : Type) `{Countable U} (v : Lengthable Q U)
        (n : Z) :
  n ≤ 0 → run fam (CMinSize Q U v n) field errors = errors.
Proof.
  intros Hn. apply run_passing. simpl. apply Z.ltb_ge.
  destruct v; simpl; lia.
Qed.

Lemma min_size_below_one_never_fails_witness :
  0 ≤ 0 ∧ run Direct (CMinSize nat nat (Slice []) 0) "tags" ∅ = ∅.
Proof.
  split; [done|].
  by apply (min_size_below_one_never_fails Direct "tags" ∅ nat nat (Slice []) 0).
Defined.

(** X10.  Whenever the minimum-size check reports with the singular
    "entry", the minimum is 1, the container is empty and the message is
    "Must have a minimum of 1 entry, but had 0". *)
Theorem min_size_singular_message (fam : Family) (field : string)
        (errors : Errors) (Q U : Type) `{Countable U} (v : Lengthable Q U)
        (n : Z) :
  len v < n → n ≤ 1 →
  n = 1 ∧ len v = 0 ∧
  run fam (CMinSize Q U v n) field errors
  = forms.AddError field errors "Must have a minimum of 1 entry, but had 0".
Proof.
  intros Hv Hn.
  assert (0 ≤ len v) by (destruct v; simpl; lia).
  assert (n = 1) as -> by lia. assert (len v = 0) as Hz by lia.
  repeat split; [done|].
  rewrite run_to_Direct by reflexivity. simpl. unfold forms.IsMinSize.
  rewrite Hz. reflexivity.
Qed.

Lemma min_size_singular_message_witness :
  len (Slice (U := nat) ([] : list nat)) < 1 ∧ 1 ≤ 1 ∧
  1 = 1 ∧ len (Slice (U := nat) ([] : list nat)) = 0 ∧
  run Wrapped (CMinSize nat nat (Slice []) 1) "tags" ∅
  = forms.AddError "tags" ∅ "Must have a minimum of 1 entry, but had 0".
Proof.
  split; [by vm_compute|]. split; [done|].
  apply (min_size_singular_message Wrapped "tags" ∅ nat nat (Slice []) 1).
  - by vm_compute.
  - done.
Defined.

(** ** Bounds *)

(** X11.  With equal bounds a range check passes for exactly one
    quantity: the string of [m] bytes, the number equal to [m], the
    container of [m] entries. *)
Theorem equal_bounds_accept_one_quantity (fam : Family) (field : string)
        (errors : Errors) :
  (∀ (v : string) (m : Z),
      run fam (CStringLength v m m) field errors = errors ↔ lenString v = m) ∧
  (∀ (T : NumericComparable) (v m : num T),
      run fam (CNumberBetween T v m m) field errors = errors
      ↔ val v = val m) ∧
  (∀ (Q U : Type) `{Countable U} (v : Lengthable Q U) (m : Z),
      run fam (CSize Q U v m m) field errors = errors ↔ len v = m).
Proof.
  assert (∀ c : Check,
             run fam c field errors = errors ↔ violated c = false) as Hrun.
  { intros c. split; [|apply run_passing].
    intros Hr. destruct (violated c) eqn:Hv; [|done].
    destruct (run_failing fam c field errors Hv) as [msg Hm].
    rewrite Hm in Hr. exfalso. revert Hr.
    apply (appends_changes field msg). apply appends_AddError. }
  repeat split; intros;
    try (apply Hrun; simpl; apply orb_false_iff; rewrite !Z.ltb_ge; lia);
    match goal with
    | H : run _ _ _ _ = _ |- _ =>
      apply Hrun in H; simpl in H; apply orb_false_iff in H;
      rewrite !Z.ltb_ge in H; lia
    end.
Qed.

(** X12.  A numeric range check whose bounds are the least and the
    greatest value of the integer type accepts every value of that type. *)
Theorem full_range_accepts_every_value (fam : Family) (field : string)
        (errors : Errors) (T : NumericComparable) (v : num T) :
  run fam (CNumberBetween T v (lowest T) (highest T)) field errors = errors.
Proof.
  apply run_passing. simpl. pose proof (val_ok v) as Hv.
  unfold inRange in Hv. apply andb_true_iff in Hv as [Hlo Hhi].
  apply Z.leb_le in Hlo, Hhi.
  assert (val (lowest T) = minOf T) as -> by (by destruct T).
  assert (val (highest T) = maxOf T) as -> by (by destruct T).
  apply orb_false_iff. rewrite !Z.ltb_ge. done.
Qed.

(** X13.  With a negative maximum the string-length and size-range checks
    report for every value, whatever the minimum is. *)
Theorem negative_maximum_rejects_everything (fam : Family) (field : string)
        (errors : Errors) (m n : Z) :
  n < 0 →
  (∀ v : string,
      appended field errors (run fam (CStringLength v m n) field errors)) ∧
  (∀ (Q U : Type) `{Countable U} (v : Lengthable Q U),
      appended field errors (run fam (CSize Q U v m n) field errors)).
Proof.
  intros Hn. split; intros; apply appended_iff_violated; simpl;
    apply orb_true_iff; right; apply Z.ltb_lt.
  - unfold lenString. lia.
  - destruct v; simpl; lia.
Qed.

Lemma negative_maximum_rejects_everything_witness :
  -1 < 0 ∧
  appended "name" ∅ (run Direct (CStringLength "" (-5) (-1)) "name" ∅).
Proof.
  split; [done|].
  by apply (proj1 (negative_maximum_rejects_everything Direct "name" ∅ (-5) (-1)
                     eq_refl) "").
Defined.

(** ** Messages with a ['%'] *)

(** X14.  For every check other than a pattern check whose message has a
    ['%'], the function of [validate/validation.go] leaves the accumulator
    exactly as the [Is*] function does. *)
Theorem wrapped_agrees_without_percent (c : Check) (field : string)
        (errors : Errors) :
  percentFree c = true →
  run Wrapped c field errors = run Direct c field errors.
Proof. apply families_agree. Qed.

Lemma wrapped_agrees_without_percent_witness :
  percentFree (CRegex "xyz" axcRx "bad") = true ∧
  run Wrapped (CRegex "xyz" axcRx "bad") "f" ∅
  = run Direct (CRegex "xyz" axcRx "bad") "f" ∅.
Proof.
  split; [reflexivity|].
  by apply (wrapped_agrees_without_percent (CRegex "xyz" axcRx "bad") "f" ∅).
Defined.

Section escaping.
Import fmt.

Lemma append_empty_r (s : string) : s +:+ EmptyString = s.
Proof. induction s as [|c s IH]; [done|]. rewrite append_cons. by f_equal. Qed.

Lemma literal_rest (s lit rest : string) :
  literal s = (lit, rest) →
  s = lit +:+ rest ∧ noPercent lit = true ∧
  (rest = EmptyString ∨ ∃ t : string, rest = String "%" t).
Proof.
  revert lit rest. induction s as [|c s IH]; intros lit rest; simpl.
  - intros [= <- <-]. by repeat split; try left.
  - destruct (Ascii.eqb_spec c "%") as [->|Hc].
    + intros [= <- <-]. repeat split. right. by exists s.
    + destruct (literal s) as [l r]. intros [= <- <-].
      destruct (IH l r eq_refl) as (-> & Hl & Hr).
      repeat split; [|done]. unfold noPercent in *. simpl. rewrite Hl.
      by destruct (Ascii.eqb_spec c "%").
Qed.

Lemma literal_escapePercent (s : string) :
  literal (escapePercent s)
  = (fst (literal s), escapePercent (snd (literal s))).
Proof.
  induction s as [|c s IH]; simpl; [done|].
  destruct (Ascii.eqb_spec c "%") as [->|Hc]; simpl; [done|].
  destruct (Ascii.eqb_spec c "%"); [done|].
  rewrite IH. by destruct (literal s).
Qed.

Lemma length_escapePercent (s : string) :
  (String.length s ≤ String.length (escapePercent s))%nat.
Proof.
  induction s as [|c s IH]; simpl; [done|].
  destruct (Ascii.eqb c "%"); simpl; lia.
Qed.

(** Formatting a message whose ['%'] are doubled gives the message back. *)
Lemma doPrintf_escapePercent (fuel : nat) (s : string) :
  (String.length s < fuel)%nat → doPrintf fuel (escapePercent s) = s.
Proof.
  revert s. induction fuel as [|fuel IH]; intros s Hlen; [lia|].
  simpl. rewrite literal_escapePercent.
  destruct (literal s) as [lit rest] eqn:E. simpl.
  destruct (literal_rest s lit rest E) as (-> & _ & [->|[t ->]]).
  - simpl. by rewrite append_empty_r.
  - simpl. rewrite length_append in Hlen. simpl in Hlen.
    rewrite IH by lia. reflexivity.
Qed.

End escaping.

(** X15.  The wrapped pattern check called with a message in which every
    ['%'] is doubled records what the [Is*] pattern check records for the
    message itself. *)
Theorem doubled_percent_is_recorded_once (field : string) (errors : Errors)
        (v : string) (rx : regexp.Regexp) (message : string) :
  validate.Regex field errors v rx (escapePercent message)
  = forms.IsRegex field errors v rx message.
Proof.
  unfold validate.Regex, forms.IsRegex, fmt.Errorf.
  destruct (negb (regexp.MatchString rx v)); [|done].
  rewrite doPrintf_escapePercent; [done|].
  pose proof (length_escapePercent message). lia.
Qed.

(** ** Values the email check rejects *)

Lemma countAt_app (a b : string) :
  countAt (a +:+ b) = (countAt a + countAt b)%nat.
Proof. unfold countAt. by rewrite bytes_app, filter_app, length_app. Qed.

Lemma emailShape_needs (v : string) :
  emailShape v →
  3 ≤ lenString v ∧ (1 ≤ countAt v)%nat ∧ hasSpace v = false.
Proof.
  intros (Hs & x & y & -> & Hx & Hy). repeat split; [| |done].
  - unfold lenString. rewrite !length_append.
    destruct x, y; simpl; try done. lia.
  - rewrite !countAt_app. unfold countAt at 2. simpl. lia.
Qed.

(** X16.  The email check of either family rejects every value shorter
    than three bytes (the empty string among them), every value without an
    [@], and every value with a whitespace byte. *)
Theorem email_rejects_short_atless_or_spaced (fam : Family) (field : string)
        (errors : Errors) (v : string) :
  lenString v < 3 ∨ countAt v = 0%nat ∨ hasSpace v = true →
  run fam (CEmail v) field errors
  = forms.AddError field errors "Email address is invalid".
Proof.
  intros Hv. rewrite run_CEmail.
  destruct (regexp.MatchString EmailRx v) eqn:E; [|done].
  apply MatchString_EmailRx, emailShape_needs in E as (H3 & Hat & Hsp).
  destruct Hv as [?|[?|?]]; [lia|lia|congruence].
Qed.

Lemma email_rejects_short_atless_or_spaced_witness :
  (lenString "" < 3 ∨ countAt "" = 0%nat ∨ hasSpace "" = true) ∧
  run Wrapped (CEmail "") "email" ∅
  = forms.AddError "email" ∅ "Email address is invalid".
Proof.
  split; [left; by vm_compute|].
  apply (email_rejects_short_atless_or_spaced Wrapped "email" ∅ "").
  left. by vm_compute.
Defined.
